(** * Planalityk: the landing-page route preview

    A shallow embedding of [src/frontend/src/pages/landing_old.jsx]
    ([mulberry32], [noiseSeries], [makeRoutePreview]) and the properties of
    the ride model that the specification states about it.

    JavaScript numbers are modelled through an interface [Num] of the
    operations the code uses.  The interface has two instances here: exact
    rationals ([Q], executable) and real numbers ([R], which also carries
    [Math.atan], [Math.sin], [Math.cos]).  Rounding of IEEE doubles is not
    modelled: theorems stated for every [Num] hold whatever the arithmetic
    does, theorems stated over [R] are about the idealised arithmetic.

    The 32-bit integer arithmetic of [mulberry32] is modelled exactly over
    [Z], and the mutable variable captured by the closure it returns lives in
    an explicit heap.

    The last part covers the result page: the category filters of
    [PlaceFilters], the places and the markers of the map, and the name of
    the downloaded video. *)

From stdpp Require Import base list strings gmap.
From Stdlib Require Import ZArith QArith Qabs Reals Ranalysis1 Ratan Lra Lia Psatz.

Local Close Scope Q_scope.

(** ** Numbers *)

Class Num (F : Type) : Type := {
  lit : Q -> F;               (* a numeric literal, or an integer made a number *)
  add : F -> F -> F;
  sub : F -> F -> F;
  mul : F -> F -> F;
  div : F -> F -> F;
  neg : F -> F;
  ltb : F -> F -> bool;       (* a < b *)
  fmax : F -> F -> F;         (* Math.max *)
  fabs : F -> F               (* Math.abs *)
}.

Class Trig (F : Type) : Type := {
  atan : F -> F;              (* Math.atan *)
  sin : F -> F;               (* Math.sin *)
  cos : F -> F                (* Math.cos *)
}.

Arguments lit {F _} q%_Q.

Declare Scope num_scope.
Delimit Scope num_scope with num.
Notation "x + y" := (add x y) : num_scope.
Notation "x - y" := (sub x y) : num_scope.
Notation "x * y" := (mul x y) : num_scope.
Notation "x / y" := (div x y) : num_scope.
Notation "- x" := (neg x) : num_scope.
Notation "x <? y" := (ltb x y) : num_scope.

(** An array index or a counter used as a number. *)
Definition ofnat {F} `{Num F} (i : nat) : F := lit (inject_Z (Z.of_nat i)).
Definition ofZ {F} `{Num F} (z : Z) : F := lit (inject_Z z).

(** Exact rationals, kept in lowest terms so that equal values are equal terms. *)
#[export] Instance QNum : Num Q := {|
  lit q := Qred q;
  add a b := Qred (Qplus a b);
  sub a b := Qred (Qminus a b);
  mul a b := Qred (Qmult a b);
  div a b := Qred (Qdiv a b);
  neg a := Qred (Qopp a);
  ltb a b := negb (Qle_bool b a);
  fmax a b := if Qle_bool b a then a else b;
  fabs a := Qred (Qabs a)
|}.

(** Real numbers. *)
#[export] Instance RNum : Num R := {|
  lit q := Q2R q;
  add := Rplus;
  sub := Rminus;
  mul := Rmult;
  div := Rdiv;
  neg := Ropp;
  ltb a b := if Rlt_dec a b then true else false;
  fmax := Rmax;
  fabs := Rabs
|}.

#[export] Instance RTrig : Trig R := {|
  atan := Ratan.atan;
  sin := Rtrigo_def.sin;
  cos := Rtrigo_def.cos
|}.

(** ** 32-bit integer operations of JavaScript *)

Module Int32.

Definition two32 : Z := 4294967296.

(** ToUint32 and ToInt32 of an integral number. *)
Definition toUint32 (x : Z) : Z := (x mod two32)%Z.
Definition toInt32 (x : Z) : Z := ((x + 2147483648) mod two32 - 2147483648)%Z.

(** [a ^ b], [a | b], [a >>> n] and [Math.imul(a, b)]. *)
Definition xor (a b : Z) : Z := Z.lxor (toInt32 a) (toInt32 b).
Definition or (a b : Z) : Z := Z.lor (toInt32 a) (toInt32 b).
Definition ushr (a n : Z) : Z := Z.shiftr (toUint32 a) n.
Definition imul (a b : Z) : Z := toInt32 (toInt32 a * toInt32 b)%Z.

End Int32.

(** ** The heap of closure variables, and computations over it *)

(** [mulberry32(seed)] returns a closure that captures its parameter [seed]
    and updates it on every call.  A heap cell holds one such captured
    variable; a generator is the address of its cell. *)
Definition Heap : Type := list Z.
Definition Rng : Type := nat.

Definition M (A : Type) : Type := Heap -> A * Heap.

Definition ret {A} (a : A) : M A := fun h => (a, h).

Definition bind {A B} (c : M A) (k : A -> M B) : M B :=
  fun h => let (a, h') := c h in k a h'.

Notation "'let!' x ':=' c 'in' k" := (bind c (fun x => k))
  (at level 10, x name, c at level 100, k at level 200).

(** Run a computation for its result. *)
Definition eval {A} (c : M A) (h : Heap) : A := fst (c h).

(** [f] applied to the elements of [l] from left to right, with their
    indices from [i] on: the callback order of [Array.from] and
    [Array.prototype.map]. *)
Fixpoint mapiM {A B} (f : nat -> A -> M B) (i : nat) (l : list A) : M (list B) :=
  match l with
  | [] => ret []
  | x :: l' =>
      let! y := f i x in
      let! ys := mapiM f (S i) l' in
      ret (y :: ys)
  end.

(** ** mulberry32 *)

(** One call of the closure on the captured value [seed]: the number it
    returns is [fst] over 4294967296, and [snd] is the new captured value.
    The code adds 0x6d2b79f5 to [seed] without truncating it, so the captured
    value grows; as a double it stays an exact integer below 2^53, far above
    what the 4800 calls of a run reach from a 32-bit seed. *)
Definition mulberry32_call (seed : Z) : Z * Z :=
  let seed := (seed + 0x6d2b79f5)%Z in
  let t := seed in
  let t := Int32.imul (Int32.xor t (Int32.ushr t 15)) (Int32.or t 1) in
  let t := Int32.xor t (t + Int32.imul (Int32.xor t (Int32.ushr t 7)) (Int32.or t 61))%Z in
  (Int32.ushr (Int32.xor t (Int32.ushr t 14)) 0, seed).

Definition mulberry32 (seed : Z) : M Rng :=
  fun h => (length h, h ++ [seed]).

Definition call {F} `{Num F} (r : Rng) : M F :=
  fun h =>
    let (u, seed') := mulberry32_call (nth r h 0%Z) in
    ((ofZ u / lit 4294967296)%num, <[r := seed']> h).

(** ** Loops *)

(** [for (let i = lo; i < hi; i++) st = body(i, st)] *)
Definition for_loop {St} (lo hi : nat) (body : nat -> St -> St) (st : St) : St :=
  fold_left (fun st i => body i st) (seq lo (hi - lo)) st.

(** [for (let k = lo; k <= hi; k++) st = body(k, st)] over integers *)
Definition for_loopZ {St} (lo hi : Z) (body : Z -> St -> St) (st : St) : St :=
  fold_left (fun st t => body (lo + Z.of_nat t)%Z st)
            (seq 0 (Z.to_nat (hi - lo + 1))) st.

(** ** noiseSeries *)

Section NoiseSeries.
Context {F : Type} `{Num F}.
Local Open Scope num_scope.

(** The body of [noiseSeries] once the array [a] of random numbers is drawn. *)
Definition noiseSmooth (n : nat) (a : list F) (s : Z) : list F :=
  let o := replicate n (lit 0) in
  let w := Z.max 1 (Int32.or s 0) in
  for_loop 0 n (fun i o =>
    let '(S', c) :=
      for_loopZ (- w) w (fun k '(S', c) =>
        let j := Z.min (Z.of_nat n - 1) (Z.max 0 (Z.of_nat i + k)) in
        (S' + nth (Z.to_nat j) a (lit 0), (c + 1)%nat)) (lit 0, 0%nat) in
    <[i := S' / ofnat c]> o) o.

Definition noiseSeries (n : nat) (r : Rng) (s : Z) : M (list F) :=
  let! a := mapiM (fun _ (_ : unit) => let! u := call r in ret (u * lit 2 - lit 1))
                  0 (replicate n tt) in
  ret (noiseSmooth n a s).

End NoiseSeries.

(** ** makeRoutePreview *)

(** The rider constants [flat_mph], [CdA], [Crr], [mass] of [makeRoutePreview]. *)
Record Rider (F : Type) : Type := {
  flat_mph : F;
  CdA : F;
  Crr : F;
  mass : F
}.
Arguments flat_mph {F} _.
Arguments CdA {F} _.
Arguments Crr {F} _.
Arguments mass {F} _.

(** The object [{ miles, speed, grade }] that [makeRoutePreview] returns. *)
Record Preview (F : Type) : Type := {
  miles : list F;
  speed : list F;
  grade : list F
}.
Arguments miles {F} _.
Arguments speed {F} _.
Arguments grade {F} _.

(** The callback of [grade.map] that computes one speed: each local constant
    of the callback is a definition of the same name. *)
Module Ride.
Section Ride.
Context {F : Type} `{Num F} `{Trig F}.
Variable rider : Rider F.
Local Open Scope num_scope.

Definition rho : F := lit 1.225.
Definition g : F := lit 9.80665.

Definition theta (gp : F) : F := atan (gp / lit 100).
Definition grav (gp : F) : F := mass rider * g * sin (theta gp).
Definition roll (gp : F) : F := mass rider * g * Crr rider * cos (theta gp).
Definition v_flat : F := flat_mph rider * lit 0.44704.
Definition P : F :=
  v_flat * (mass rider * g * Crr rider + lit 0.5 * rho * CdA rider * v_flat * v_flat).

(** [let v = Math.max(2, v_flat + (gp < 0 ? Math.abs(gp) * 0.3 : -gp * 0.25))] *)
Definition seed_v (gp : F) : F :=
  fmax (lit 2) (v_flat + (if gp <? lit 0 then fabs gp * lit 0.3 else (- gp) * lit 0.25)).

Definition aero (v : F) : F := lit 0.5 * rho * CdA rider * v * v.
Definition f (gp v : F) : F := v * (grav gp + roll gp + aero v) - P.
Definition df (gp v : F) : F := grav gp + roll gp + lit 1.5 * aero v.

(** One turn of the loop: [v = Math.max(1, v - 0.6 * (f / Math.max(1e-6, df)))] *)
Definition newton_step (gp v : F) : F :=
  fmax (lit 1) (v - lit 0.6 * (f gp v / fmax (lit 1e-6) (df gp v))).

(** [v] after the loop [for (let t = 0; t < 6; t++)]. *)
Definition solve (gp : F) : F :=
  for_loop 0 6 (fun _ v => newton_step gp v) (seed_v gp).

Definition dip (i : nat) : F :=
  if (i mod 180 =? 0)%nat then lit (-6)
  else if (i mod 310 =? 0)%nat then lit (-10) else lit 0.
Definition whoosh (gp : F) (i : nat) : F :=
  if (gp <? lit (-4)) && (i mod 95 =? 0)%nat then lit 7 else lit 0.
(** [u] is the number that [rng()] returned. *)
Definition jitter (u : F) : F := (u - lit 0.5) * lit 0.6.

(** The value the callback returns for the grade [gp] at index [i]. *)
Definition speed_at (gp : F) (i : nat) (u : F) : F :=
  fmax (lit 5) (solve gp * lit 2.23694 + dip i + whoosh gp i + jitter u).

End Ride.
End Ride.

Section MakeRoutePreview.
Context {F : Type} `{Num F} `{Trig F}.
Local Open Scope num_scope.

Definition miles_of (pts : nat) (totalMiles : F) : list F :=
  imap (fun i (_ : unit) => (ofnat i * totalMiles) / ofZ (Z.of_nat pts - 1))
       (replicate pts tt).

Definition elev_ft_of (base bump : list F) : list F :=
  imap (fun i b => lit 60 * b + lit 25 * nth i bump (lit 0)) base.

(** The first loop over [grade]: the grade of each pair of consecutive points. *)
Definition grade_raw (pts : nat) (miles elev_ft : list F) : list F :=
  let grade := replicate pts (lit 0) in
  for_loop 1 pts (fun i grade =>
    let de := nth i elev_ft (lit 0) - nth (i - 1) elev_ft (lit 0) in
    let dx := nth i miles (lit 0) - nth (i - 1) miles (lit 0) in
    <[i := if lit 0 <? dx then (de / lit 5280 / dx) * lit 100 else lit 0]> grade) grade.

(** The second loop over [grade], which updates the array it reads. *)
Definition grade_smooth (pts : nat) (grade : list F) : list F :=
  for_loop 2 (pts - 2) (fun i grade =>
    <[i := (nth (i - 2) grade (lit 0) + nth (i - 1) grade (lit 0) + nth i grade (lit 0)
            + nth (i + 1) grade (lit 0) + nth (i + 2) grade (lit 0)) / lit 5]> grade) grade.

(** The body of [makeRoutePreview], with its constants [pts] and the rider's
    as parameters.  The result is the object the function returns, and with
    it the local array [elev_ft], which the function does not return. *)
Definition routePreview (pts : nat) (rider : Rider F) (totalMiles : F) (seed : Z)
  : M (list F * Preview F) :=
  let! rng := mulberry32 seed in
  let miles := miles_of pts totalMiles in
  let! base := noiseSeries pts rng 18 in
  let! bump := noiseSeries pts rng 5 in
  let elev_ft := elev_ft_of base bump in
  let grade := grade_smooth pts (grade_raw pts miles elev_ft) in
  let! speed := mapiM (fun i gp => let! u := call rng in ret (Ride.speed_at rider gp i u))
                      0 grade in
  ret (elev_ft, {| miles := miles; speed := speed; grade := grade |}).

(** [flat_mph = 18.5, CdA = 0.3, Crr = 0.004, mass = 62] *)
Definition preview_rider : Rider F :=
  {| flat_mph := lit 18.5; CdA := lit 0.3; Crr := lit 0.004; mass := lit 62 |}.

(** [makeRoutePreview(totalMiles, seed)]; the page calls it with both
    arguments, [makeRoutePreview(85, 1337)]. *)
Definition makeRoutePreview (totalMiles : F) (seed : Z) : M (Preview F) :=
  let! r := routePreview 1600 preview_rider totalMiles seed in
  ret (snd r).

End MakeRoutePreview.

(** ** Definitions that follow the specification *)

Section SpecDefinitions.
Context {F : Type} `{Num F}.
Local Open Scope num_scope.

Definition sum_list (l : list F) : F := fold_left add l (lit 0).

(** The smoothing as the specification words it: a 5-point centered moving
    average of the raw grades, the window of a boundary sample being
    truncated to the samples that exist. *)
Definition window (n i : nat) : list nat :=
  seq (i - 2) (Nat.min (n - 1) (i + 2) - (i - 2) + 1).

Definition moving_average_spec (raw : list F) : list F :=
  imap (fun i (_ : F) =>
          let w := window (length raw) i in
          sum_list (map (fun j => nth j raw (lit 0)) w) / ofnat (length w)) raw.

(** Modelled from the spec: the aggregator of section 4.3, whose code (the
    analysis endpoint of the backend) is not among the sources.  A segment
    joins two consecutive samples of the profile and has one speed; its time
    is its distance over its speed, the predicted time is the sum of the
    segment times, and the predicted average is the total distance over the
    predicted time. *)
Record AnalysisResult : Type := {
  distance_mi : F;
  pred_time_h : F;
  pred_avg_mph : F
}.

(** Modelled from the spec: the distance of each segment of the profile, for
    the aggregator, which is not among the sources. *)
Definition segment_distances (dist_mi : list F) : list F :=
  zip_with (fun a b => b - a) dist_mi (tail dist_mi).

(** Modelled from the spec: per-segment time = segment distance / segment
    speed, for the aggregator, which is not among the sources. *)
Definition segment_times (dist_mi speed_mph : list F) : list F :=
  zip_with (fun d v => d / v) (segment_distances dist_mi) speed_mph.

(** Modelled from the spec: the totals of the aggregator, which is not among
    the sources: total predicted time = sum of segment times, predicted
    average mph = total distance / total time. *)
Definition aggregate (dist_mi speed_mph : list F) : AnalysisResult :=
  let distance := sum_list (segment_distances dist_mi) in
  let time := sum_list (segment_times dist_mi speed_mph) in
  {| distance_mi := distance; pred_time_h := time; pred_avg_mph := distance / time |}.

(** The arithmetic mean of the speeds, which the predicted average is not. *)
Definition mean_speed (speed_mph : list F) : F :=
  sum_list speed_mph / ofnat (length speed_mph).

End SpecDefinitions.

(** A list of reals in ascending order. *)
Definition ascending (l : list R) : Prop :=
  forall i j : nat, i <= j -> j < length l -> (nth i l 0 <= nth j l 0)%R.

(** A number that some call of a generator returns. *)
Definition rng_output {F} `{Num F} (u : F) : Prop :=
  exists (r : Rng) (h : Heap), u = fst (call r h).

(** One turn of the loop of the callback over the reals, as a function of
    the drag factor [k = 0.5 * rho * CdA], of the power [P] and of the
    resisting force [c = grav + roll] of the grade. *)
Definition newton_on (k P c v : R) : R :=
  Rmax 1 (v - 0.6 * ((v * (c + k * v * v) - P) / Rmax 1e-6 (c + 1.5 * (k * v * v))))%R.

(** Two generators in two heaps that hold the same captured value. *)
Definition same_cell (r1 : Rng) (h1 : Heap) (r2 : Rng) (h2 : Heap) : Prop :=
  r1 < length h1 /\ r2 < length h2 /\ nth r1 h1 0%Z = nth r2 h2 0%Z.

(** Two computations that, run with such generators, return the same result
    and leave the generators with the same captured value again. *)
Definition related {A} (r1 r2 : Rng) (c1 c2 : M A) : Prop :=
  forall h1 h2 : Heap, same_cell r1 h1 r2 h2 ->
    fst (c1 h1) = fst (c2 h2) /\ same_cell r1 (snd (c1 h1)) r2 (snd (c2 h2)).

(** ** The charts of the landing page *)

(** [xs.map((x, i) => ({ x, y: ys[i] }))]: the points that [Landing] gives
    to a chart, from [preview.miles] and [preview.speed] or [preview.grade].
    A [y] read beyond the end of [ys] is [undefined], here [None]. *)
Definition chart_points {F} (xs ys : list F) : list (F * option F) :=
  imap (fun i x => (x, ys !! i)) xs.

(** * The result page: place filters, places and markers *)

(** [x || "other"] for a category [x]: [None] is a missing category
    ([undefined] or [null]); the empty string is falsy as well. *)
Definition or_other (category : option string) : string :=
  match category with
  | Some c => if decide (c = EmptyString) then "other"%string else c
  | None => "other"%string
  end.

Module PlaceFilters.

(** [const ALL = ["bike_shop", "cafe", "restaurant", "park", "water", "other"]] *)
Definition ALL : list string :=
  ["bike_shop"; "cafe"; "restaurant"; "park"; "water"; "other"]%string.

(** The set that [toggle(key)] hands to [onChange]: a copy of [selected]
    without [key] if it was in it, with [key] if it was not. *)
Definition toggle (selected : gset string) (key : string) : gset string :=
  let next := selected in
  if decide (elem_of key next) then difference next {[ key ]}
  else union next {[ key ]}.

Definition allOn (selected : gset string) : bool :=
  (size selected =? length ALL)%nat.
Definition noneOn (selected : gset string) : bool :=
  (size selected =? 0)%nat.

(** The text beside the check boxes. *)
Inductive Label : Type :=
  | NoCategoriesSelected
  | AllCategories
  | CountSelected (n : nat).

Definition label (selected : gset string) : Label :=
  if noneOn selected then NoCategoriesSelected
  else if allOn selected then AllCategories
  else CountSelected (size selected).

(** [checked={selected.has(k)}] *)
Definition checked (selected : gset string) (k : string) : bool :=
  bool_decide (elem_of k selected).

End PlaceFilters.

Module Result.

(** The initial state of [filters]:
    [new Set(["bike_shop", "cafe", "restaurant", "park", "water", "other"])] *)
Definition initial_filters : gset string :=
  list_to_set ["bike_shop"; "cafe"; "restaurant"; "park"; "water"; "other"]%string.

Section Places.
Context {Place : Type}.
Variable category : Place -> option string.

(** [filteredPlaces]: [places] is the state of the page, [None] until the
    places are fetched, and its field [places] may be missing. *)
Definition filteredPlaces (places : option (option (list Place)))
    (filters : gset string) : list Place :=
  match places with
  | Some (Some ps) => filter (fun p => elem_of (or_other (category p)) filters) ps
  | _ => []
  end.

End Places.
End Result.

Module MapView.

(** The table of [iconFor]. *)
Definition colors : gmap string string :=
  list_to_map [("bike_shop", "#0d6efd"); ("cafe", "#fd7e14"); ("restaurant", "#dc3545");
               ("park", "#198754"); ("water", "#20c997"); ("other", "#6c757d")]%string.

(** [color] in [iconFor(category)], the entry of the table at
    [category || "other"]: [None] stands for a key that the table does not
    hold. *)
Definition iconColor (category : option string) : option string :=
  colors !! or_other category.

End MapView.

(** ** The name of the downloaded video

    A JavaScript string is a sequence of UTF-16 code units. *)

Module Video.

(** The code units that [\s] matches. *)
Definition is_space (c : N) : bool :=
  existsb (N.eqb c)
    [9; 10; 11; 12; 13; 32; 160; 5760; 8232; 8233; 8239; 8287; 12288; 65279]%N
  || ((8192 <=? c)%N && (c <=? 8202)%N).

Definition underscore : N := 95%N.
(** [".mp4"] *)
Definition mp4 : list N := [46; 109; 112; 52]%N.

(** [s.replace(/\s+/g, "_")]: every maximal run of white space becomes one
    underscore; [in_run] tells that the code unit before was white space. *)
Fixpoint replace_from (in_run : bool) (s : list N) : list N :=
  match s with
  | [] => []
  | c :: s' =>
      if is_space c then
        if in_run then replace_from true s' else underscore :: replace_from true s'
      else c :: replace_from false s'
  end.

Definition replace_spaces (s : list N) : list N := replace_from false s.

(** [a || b] for strings that may be missing: [None] and the empty string
    are falsy. *)
Definition or_else (a : option (list N)) (b : option (list N)) : option (list N) :=
  match a with
  | Some (_ :: _) => a
  | _ => b
  end.

(** [a ?? b]: only a missing value falls through. *)
Definition nullish (a : option (list N)) (b : option (list N)) : option (list N) :=
  match a with
  | Some _ => a
  | None => b
  end.

(** [data?.filename || data?.route_hash || fileId]; [fileId] is the
    parameter of the route of the page, a string. *)
Definition base_name (filename route_hash : option (list N)) (fileId : list N)
  : list N :=
  match or_else filename route_hash with
  | Some (c :: s) => c :: s
  | _ => fileId
  end.

(** [filename] in [genVideo]:
    [(...).toString().replace(/\s+/g, "_") + ".mp4"] *)
Definition download_name (filename route_hash : option (list N)) (fileId : list N)
  : list N :=
  replace_spaces (base_name filename route_hash fileId) ++ mp4.

(** [route_name: data?.filename || (data?.route_hash ?? fileId)] *)
Definition route_name (filename route_hash : option (list N)) (fileId : list N)
  : list N :=
  match filename with
  | Some (c :: s) => c :: s
  | _ => default fileId (nullish route_hash (Some fileId))
  end.

End Video.

(** * Properties *)

(** ** Loops that fill an array *)

Lemma nth_insert_eq {A} (l : list A) (i : nat) (x d : A) :
  i < length l -> nth i (<[i := x]> l) d = x.
Proof. intros Hi. rewrite nth_lookup, list_lookup_insert_eq; auto. Qed.

Lemma nth_insert_ne {A} (l : list A) (i j : nat) (x d : A) :
  i <> j -> nth j (<[i := x]> l) d = nth j l d.
Proof. intros Hne. rewrite !nth_lookup, list_lookup_insert_ne; auto. Qed.

Lemma for_loop_done {St} (lo hi : nat) (body : nat -> St -> St) (st : St) :
  hi <= lo -> for_loop lo hi body st = st.
Proof. intros Hle. unfold for_loop. replace (hi - lo) with 0 by lia. reflexivity. Qed.

Lemma for_loop_last {St} (lo hi : nat) (body : nat -> St -> St) (st : St) :
  lo <= hi -> for_loop lo (S hi) body st = body hi (for_loop lo hi body st).
Proof.
  intros Hle. unfold for_loop.
  replace (S hi - lo) with (S (hi - lo)) by lia.
  rewrite seq_S, fold_left_app. simpl.
  replace (lo + (hi - lo)) with hi by lia. reflexivity.
Qed.

Section ArrayLoop.
Context {A : Type} (g : nat -> list A -> A) (a0 : list A) (lo : nat).

(** [run k] is the array after the turns [lo .. k-1] of a loop whose turn [i]
    stores [g i a] at index [i] of the array [a] it has reached. *)
Local Abbreviation run k := (for_loop lo k (fun i a => <[i := g i a]> a) a0).

Lemma array_loop_length (k : nat) : length (run k) = length a0.
Proof.
  induction k as [|k IH].
  - rewrite for_loop_done by lia. reflexivity.
  - destruct (le_lt_dec lo k) as [Hle|Hlt].
    + rewrite for_loop_last by exact Hle.
      rewrite length_insert. exact IH.
    + rewrite for_loop_done by lia. reflexivity.
Qed.

(** An index the loop has not reached holds its initial value. *)
Lemma array_loop_ahead (k j : nat) (d : A) :
  k <= j -> nth j (run k) d = nth j a0 d.
Proof.
  induction k as [|k IH]; intros Hj.
  - rewrite for_loop_done by lia. reflexivity.
  - destruct (le_lt_dec lo k) as [Hle|Hlt].
    + rewrite for_loop_last by exact Hle.
      rewrite nth_insert_ne by lia. apply IH. lia.
    + rewrite for_loop_done by lia. reflexivity.
Qed.

(** An index below the start of the loop is never written. *)
Lemma array_loop_below (k j : nat) (d : A) :
  j < lo -> nth j (run k) d = nth j a0 d.
Proof.
  intros Hj. induction k as [|k IH].
  - rewrite for_loop_done by lia. reflexivity.
  - destruct (le_lt_dec lo k) as [Hle|Hlt].
    + rewrite for_loop_last by exact Hle.
      rewrite nth_insert_ne by lia. exact IH.
    + rewrite for_loop_done by lia. reflexivity.
Qed.

(** An index the loop has passed keeps the value it was given. *)
Lemma array_loop_stable (k k' j : nat) (d : A) :
  j < k -> k <= k' -> nth j (run k') d = nth j (run k) d.
Proof.
  intros Hj Hk. induction Hk as [|k' Hk IH].
  - reflexivity.
  - destruct (le_lt_dec lo k') as [Hle|Hlt].
    + rewrite (for_loop_last lo k') by exact Hle.
      rewrite nth_insert_ne by lia. exact IH.
    + rewrite !for_loop_done by lia. reflexivity.
Qed.

(** The value stored at [j] is computed from the array as turn [j] finds it. *)
Lemma array_loop_written (k j : nat) (d : A) :
  lo <= j -> j < k -> j < length a0 -> nth j (run k) d = g j (run j).
Proof.
  intros Hlo Hj Hlen.
  rewrite (array_loop_stable (S j) k) by lia.
  rewrite for_loop_last by exact Hlo.
  apply nth_insert_eq. rewrite array_loop_length. exact Hlen.
Qed.

End ArrayLoop.

(** ** Computations over the heap *)

Lemma mapiM_length {A B} (f : nat -> A -> M B) (l : list A) :
  forall (i : nat) (h : Heap), length (fst (mapiM f i l h)) = length l.
Proof.
  induction l as [|x l IH]; intros i h; simpl.
  - reflexivity.
  - unfold bind. destruct (f i x h) as [y h1].
    specialize (IH (S i) h1). destruct (mapiM f (S i) l h1) as [ys h2].
    simpl in *. congruence.
Qed.

(** Every element of the result is what the callback returned for the
    element of the same index, in some heap. *)
Lemma mapiM_nth {A B} (f : nat -> A -> M B) (l : list A) (da : A) (db : B) :
  forall (i : nat) (h : Heap) (k : nat), k < length l ->
    exists h' : Heap, nth k (fst (mapiM f i l h)) db = fst (f (i + k) (nth k l da) h').
Proof.
  induction l as [|x l IH]; intros i h k Hk; simpl in Hk.
  - lia.
  - simpl. unfold bind. destruct (f i x h) as [y h1] eqn:E1.
    destruct (mapiM f (S i) l h1) as [ys h2] eqn:E2. simpl.
    destruct k as [|k].
    + exists h. rewrite Nat.add_0_r, E1. reflexivity.
    + destruct (IH (S i) h1 k ltac:(lia)) as [h' Hh'].
      exists h'. rewrite E2 in Hh'. simpl in Hh'. rewrite Hh'.
      replace (i + S k) with (S i + k) by lia. reflexivity.
Qed.

(** ** The arrays of [makeRoutePreview] *)

Lemma for_loop_ext {St} (lo hi : nat) (body1 body2 : nat -> St -> St) (st : St) :
  (forall i st', body1 i st' = body2 i st') ->
  for_loop lo hi body1 st = for_loop lo hi body2 st.
Proof.
  intros Hext. unfold for_loop. generalize (seq lo (hi - lo)) as l. intros l.
  revert st. induction l as [|i l IH]; intros st; simpl.
  - reflexivity.
  - rewrite Hext. apply IH.
Qed.

Section Arrays.
Context {F : Type} `{Num F}.
Local Open Scope num_scope.

Lemma length_miles_of (pts : nat) (totalMiles : F) :
  length (miles_of pts totalMiles) = pts.
Proof. unfold miles_of. rewrite length_imap, length_replicate. reflexivity. Qed.

Lemma nth_miles_of (pts : nat) (totalMiles : F) (i : nat) :
  i < pts ->
  nth i (miles_of pts totalMiles) (lit 0) = (ofnat i * totalMiles) / ofZ (Z.of_nat pts - 1).
Proof.
  intros Hi. unfold miles_of. rewrite nth_lookup, list_lookup_imap.
  rewrite lookup_replicate_2 by exact Hi. reflexivity.
Qed.

Lemma length_elev_ft_of (base bump : list F) :
  length (elev_ft_of base bump) = length base.
Proof. unfold elev_ft_of. apply length_imap. Qed.

Lemma length_noiseSmooth (n : nat) (a : list F) (s : Z) :
  length (noiseSmooth n a s) = n.
Proof.
  unfold noiseSmooth.
  set (g := fun (i : nat) (_ : list F) =>
    let '(S', c) :=
      for_loopZ (- Z.max 1 (Int32.or s 0)) (Z.max 1 (Int32.or s 0))
        (fun k '(S', c) =>
           let j := Z.min (Z.of_nat n - 1) (Z.max 0 (Z.of_nat i + k)) in
           (S' + nth (Z.to_nat j) a (lit 0), (c + 1)%nat)) (lit 0, 0%nat) in
    S' / ofnat c).
  rewrite (for_loop_ext _ _ _ (fun i o => <[i := g i o]> o)).
  - rewrite array_loop_length. apply length_replicate.
  - intros i o. unfold g. destruct (for_loopZ _ _ _ _) as [S' c]. reflexivity.
Qed.

Lemma length_noiseSeries (n : nat) (r : Rng) (s : Z) (h : Heap) :
  length (fst (noiseSeries n r s h)) = n.
Proof.
  unfold noiseSeries, bind. destruct (mapiM _ _ _ h) as [a h1]. simpl.
  apply length_noiseSmooth.
Qed.

(** *** The first loop over [grade] *)

Lemma length_grade_raw (pts : nat) (miles elev_ft : list F) :
  length (grade_raw pts miles elev_ft) = pts.
Proof.
  unfold grade_raw. cbv zeta.
  rewrite (array_loop_length (fun i _ => _)). apply length_replicate.
Qed.

Lemma grade_raw_first (pts : nat) (miles elev_ft : list F) :
  nth 0 (grade_raw pts miles elev_ft) (lit 0) = lit 0.
Proof.
  unfold grade_raw. cbv zeta.
  rewrite (array_loop_below (fun i _ => _)) by lia.
  destruct pts; reflexivity.
Qed.

Lemma grade_raw_nth (pts : nat) (miles elev_ft : list F) (i : nat) :
  1 <= i -> i < pts ->
  nth i (grade_raw pts miles elev_ft) (lit 0) =
    let de := nth i elev_ft (lit 0) - nth (i - 1) elev_ft (lit 0) in
    let dx := nth i miles (lit 0) - nth (i - 1) miles (lit 0) in
    if lit 0 <? dx then (de / lit 5280 / dx) * lit 100 else lit 0.
Proof.
  intros H1 Hi. unfold grade_raw. cbv zeta.
  rewrite (array_loop_written (fun i _ => _)).
  - reflexivity.
  - exact H1.
  - exact Hi.
  - rewrite length_replicate. exact Hi.
Qed.

(** *** The second loop over [grade] *)

Lemma length_grade_smooth (pts : nat) (gr : list F) :
  length (grade_smooth pts gr) = length gr.
Proof. unfold grade_smooth. apply (array_loop_length (fun i a => _)). Qed.

Lemma grade_smooth_boundary (pts : nat) (gr : list F) (i : nat) (d : F) :
  i < 2 \/ pts - 2 <= i -> nth i (grade_smooth pts gr) d = nth i gr d.
Proof.
  intros [Hlo|Hhi]; unfold grade_smooth.
  - apply (array_loop_below (fun i a => _)). exact Hlo.
  - apply (array_loop_ahead (fun i a => _)). exact Hhi.
Qed.

(** What the loop stores at an interior index: the two entries before it
    are read after the loop has replaced them, the three others are as the
    first loop left them. *)
Lemma grade_smooth_interior (pts : nat) (gr : list F) (i : nat) :
  length gr = pts -> 2 <= i -> i < pts - 2 ->
  let out := grade_smooth pts gr in
  nth i out (lit 0) =
    (nth (i - 2) out (lit 0) + nth (i - 1) out (lit 0) + nth i gr (lit 0)
     + nth (i + 1) gr (lit 0) + nth (i + 2) gr (lit 0)) / lit 5.
Proof.
  intros Hlen H2 Hi. cbv zeta. unfold grade_smooth.
  rewrite (array_loop_written (fun i a => _) gr 2 (pts - 2) i) by lia.
  rewrite (array_loop_stable (fun i a => _) gr 2 i (pts - 2) (i - 2)) by lia.
  rewrite (array_loop_stable (fun i a => _) gr 2 i (pts - 2) (i - 1)) by lia.
  rewrite (array_loop_ahead (fun i a => _) gr 2 i i) by lia.
  rewrite (array_loop_ahead (fun i a => _) gr 2 i (i + 1)) by lia.
  rewrite (array_loop_ahead (fun i a => _) gr 2 i (i + 2)) by lia.
  reflexivity.
Qed.

(** The first interior sample is the plain average of five raw grades. *)
Lemma grade_smooth_first_interior (pts : nat) (gr : list F) :
  length gr = pts -> 5 <= pts ->
  nth 2 (grade_smooth pts gr) (lit 0) =
    (nth 0 gr (lit 0) + nth 1 gr (lit 0) + nth 2 gr (lit 0)
     + nth 3 gr (lit 0) + nth 4 gr (lit 0)) / lit 5.
Proof.
  intros Hlen Hp.
  rewrite (grade_smooth_interior pts gr 2 Hlen) by lia.
  rewrite !grade_smooth_boundary by (left; lia). reflexivity.
Qed.

End Arrays.

(** ** The shape of a run *)

Section Runs.
Context {F : Type} `{Num F} `{Trig F}.
Local Open Scope num_scope.

(** A run draws the two noise series and then maps the smoothed grades to
    speeds, one call of the generator for each. *)
Lemma routePreview_shape (pts : nat) (rider : Rider F) (totalMiles : F) (seed : Z)
    (h : Heap) :
  exists (base bump : list F) (h' : Heap),
    length base = pts /\ length bump = pts /\
    let miles := miles_of pts totalMiles in
    let elev_ft := elev_ft_of base bump in
    let grade := grade_smooth pts (grade_raw pts miles elev_ft) in
    eval (routePreview pts rider totalMiles seed) h =
      (elev_ft,
       {| miles := miles;
          speed := fst (mapiM (fun i gp => let! u := call (length h) in
                                            ret (Ride.speed_at rider gp i u)) 0 grade h');
          grade := grade |}).
Proof.
  unfold routePreview, eval, bind, mulberry32.
  pose proof (length_noiseSeries (F := F) pts (length h) 18 (h ++ [seed])) as Hb.
  destruct (noiseSeries pts (length h) 18 (h ++ [seed])) as [base h1].
  pose proof (length_noiseSeries (F := F) pts (length h) 5 h1) as Hu.
  destruct (noiseSeries pts (length h) 5 h1) as [bump h2].
  simpl in Hb, Hu. exists base, bump, h2. split; [exact Hb|]. split; [exact Hu|].
  cbv zeta. destruct (mapiM _ 0 _ h2) as [sp h3]. reflexivity.
Qed.

Lemma makeRoutePreview_eval (totalMiles : F) (seed : Z) (h : Heap) :
  eval (makeRoutePreview totalMiles seed) h =
    snd (eval (routePreview 1600 preview_rider totalMiles seed) h).
Proof.
  unfold makeRoutePreview, eval, bind.
  destruct (routePreview 1600 preview_rider totalMiles seed h) as [r h1]. reflexivity.
Qed.

Lemma routePreview_lengths (pts : nat) (rider : Rider F) (totalMiles : F) (seed : Z)
    (h : Heap) :
  let r := eval (routePreview pts rider totalMiles seed) h in
  length (fst r) = pts /\ length (miles (snd r)) = pts /\
  length (speed (snd r)) = pts /\ length (grade (snd r)) = pts.
Proof.
  destruct (routePreview_shape pts rider totalMiles seed h)
    as (base & bump & h' & Hb & Hu & Hr).
  cbv zeta in *. rewrite Hr. simpl.
  rewrite length_elev_ft_of, length_miles_of, mapiM_length,
    length_grade_smooth, length_grade_raw. auto.
Qed.

(** The first grade is the 0 the array was filled with: no loop writes it. *)
Lemma routePreview_grade_first (pts : nat) (rider : Rider F) (totalMiles : F) (seed : Z)
    (h : Heap) :
  nth 0 (grade (snd (eval (routePreview pts rider totalMiles seed) h))) (lit 0) = lit 0.
Proof.
  destruct (routePreview_shape pts rider totalMiles seed h)
    as (base & bump & h' & Hb & Hu & Hr).
  cbv zeta in *. rewrite Hr. simpl.
  rewrite grade_smooth_boundary by (left; lia). apply grade_raw_first.
Qed.

(** Each speed is the value of the callback at the grade of the same index
    and at a number the generator returned. *)
Lemma routePreview_speed_nth (pts : nat) (rider : Rider F) (totalMiles : F) (seed : Z)
    (h : Heap) (k : nat) :
  k < pts ->
  let p := snd (eval (routePreview pts rider totalMiles seed) h) in
  exists u : F, rng_output u /\
    nth k (speed p) (lit 0) = Ride.speed_at rider (nth k (grade p) (lit 0)) k u.
Proof.
  intros Hk.
  destruct (routePreview_shape pts rider totalMiles seed h)
    as (base & bump & h' & Hb & Hu & Hr).
  cbv zeta in *. rewrite Hr. simpl.
  set (gr := grade_smooth pts _).
  destruct (mapiM_nth (fun i gp => let! u := call (length h) in
                                   ret (Ride.speed_at rider gp i u))
              gr (lit 0) (lit 0) 0 h' k) as [hk Hhk].
  { unfold gr. rewrite length_grade_smooth, length_grade_raw. exact Hk. }
  exists (fst (call (length h) hk)). split.
  - exists (length h), hk. reflexivity.
  - rewrite Hhk. unfold bind, ret. simpl.
    destruct (call (length h) hk) as [u h2]. reflexivity.
Qed.

End Runs.

(** ** Grade preprocessing *)

Section GradeClaims.
Context {F : Type} `{Num F} `{Trig F}.
Local Open Scope num_scope.

(** C8, as the code has it: the array of grades has one entry for each
    sample of the profile, as many as [miles] has and not one less, and its
    first entry is the 0 the array was filled with. *)
Theorem grade_series_length (pts : nat) (rider : Rider F) (totalMiles : F) (seed : Z)
    (h : Heap) :
  let p := snd (eval (routePreview pts rider totalMiles seed) h) in
  length (grade p) = length (miles p) /\ length (grade p) = pts /\
  nth 0 (grade p) (lit 0) = lit 0.
Proof.
  cbv zeta.
  destruct (routePreview_lengths pts rider totalMiles seed h) as (_ & Hm & _ & Hg).
  cbv zeta in *. rewrite Hg, Hm. repeat split; auto.
  apply routePreview_grade_first.
Qed.

(** C7, as the code has it: the smoothing pass keeps the length of the
    array, leaves the first two and the last two samples at their raw grade
    (no truncated window, no padding), and makes the first interior sample
    the plain average of the five raw grades of its window. *)
Theorem smoothing_window (pts : nat) (gr : list F) :
  length gr = pts -> 5 <= pts ->
  let out := grade_smooth pts gr in
  length out = pts /\
  (forall i : nat, i < 2 \/ pts - 2 <= i -> nth i out (lit 0) = nth i gr (lit 0)) /\
  nth 2 out (lit 0) =
    (nth 0 gr (lit 0) + nth 1 gr (lit 0) + nth 2 gr (lit 0)
     + nth 3 gr (lit 0) + nth 4 gr (lit 0)) / lit 5.
Proof.
  intros Hlen Hp. cbv zeta. split; [|split].
  - rewrite length_grade_smooth. exact Hlen.
  - intros i Hi. apply grade_smooth_boundary. exact Hi.
  - apply grade_smooth_first_interior; assumption.
Qed.

End GradeClaims.

(** The smoothing pass on six rational grades: the sample 3 is computed from
    the sample 2 as already replaced, so it is not the average of the raw
    grades around it. *)
Example grade_smooth_in_place :
  grade_smooth 6 [0; 5; 0; 0; 0; 0]%Q = [0; 5; 1; 6 # 5; 0; 0]%Q /\
  moving_average_spec [0; 5; 0; 0; 0; 0]%Q = [5 # 3; 5 # 4; 1; 1; 0; 0]%Q.
Proof. split; vm_compute; reflexivity. Qed.

Lemma smoothing_window_witness :
  let gr := [0; 5; 0; 0; 0; 0]%Q in
  let out := grade_smooth 6 gr in
  length out = 6 /\
  (nth 1 out 0%Q = 5%Q /\ nth 4 out 0%Q = 0%Q) /\
  nth 2 out 0%Q = 1%Q.
Proof.
  destruct (smoothing_window (F := Q) 6 [0; 5; 0; 0; 0; 0]%Q) as (Hlen & Hb & Hi);
    [reflexivity | lia |].
  split; [exact Hlen|]. split; [split|].
  - exact (Hb 1 (or_introl (le_n 2))).
  - exact (Hb 4 (or_intror (le_n 4))).
  - etransitivity; [exact Hi | reflexivity].
Defined.

(** C7 as stated fails: with the constant [pts = 1600] of the code and the raw
    grades 0, 5, 0, 0, ..., the sample 1 keeps its raw grade 5, where the
    average over the truncated window of the samples 0 to 3 is 5/4. *)
Lemma smoothing_not_truncated_average :
  let raw := (0 :: 5 :: replicate 1598 0)%Q in
  nth 1 (grade_smooth 1600 raw) 0%Q <> nth 1 (moving_average_spec raw) 0%Q.
Proof.
  cbv zeta. rewrite (grade_smooth_boundary (F := Q)) by (left; lia).
  vm_compute. discriminate.
Qed.

(** ** Real numbers: literals and the generator *)

Local Open Scope R_scope.

(** Turns the operations of the instance [RNum] into those of [R], and the
    literals into quotients of integers. *)
Ltac literal_parts q k :=
  let n := eval vm_compute in (Qnum q) in
  let d := eval vm_compute in (Qden q) in
  lazymatch n with
  | Z0 => k n d
  | Zpos _ => k n d
  | Zneg _ => k n d
  | _ => let n' := eval cbn in (Qnum q) in
         let d' := eval cbn in (Qden q) in k n' d'
  end.

Ltac real_lits :=
  repeat match goal with
  | |- context [Q2R ?q] =>
      literal_parts q ltac:(fun n d => change (Q2R q) with (IZR n * / IZR (Zpos d)))
  | H : context [Q2R ?q] |- _ =>
      literal_parts q ltac:(fun n d => change (Q2R q) with (IZR n * / IZR (Zpos d)) in H)
  end.

Ltac real_ops :=
  cbn [lit add sub mul div neg fmax fabs RNum atan sin cos RTrig
       flat_mph CdA Crr mass] in *;
  unfold ofnat, ofZ in *;
  cbn [lit RNum] in *;
  real_lits.

Lemma lit_zero_R : lit (F := R) 0 = 0.
Proof. real_ops. lra. Qed.

Lemma ofnat_R (i : nat) : ofnat (F := R) i = INR i.
Proof. real_ops. rewrite INR_IZR_INZ. lra. Qed.

Lemma ltb_R (a b : R) : ltb (F := R) a b = true <-> a < b.
Proof. cbn [ltb RNum]. destruct (Rlt_dec a b); split; intros; try discriminate; tauto. Qed.

Lemma ltb_R_false (a b : R) : ltb (F := R) a b = false <-> b <= a.
Proof.
  cbn [ltb RNum].
  destruct (Rlt_dec a b); split; intros; first [discriminate | lra | reflexivity].
Qed.

Lemma mulberry32_call_range (seed : Z) :
  (0 <= fst (mulberry32_call seed) < 4294967296)%Z.
Proof.
  unfold mulberry32_call. cbv zeta. cbn [fst]. unfold Int32.ushr at 1.
  rewrite Z.shiftr_0_r. unfold Int32.toUint32, Int32.two32.
  apply Z.mod_pos_bound. lia.
Qed.

(** [rng()] returns a number of the interval from 0 to 1, 1 excluded. *)
Lemma rng_output_range (u : R) : rng_output u -> 0 <= u < 1.
Proof.
  intros (r & h & ->). unfold call.
  pose proof (mulberry32_call_range (nth r h 0%Z)) as Hr.
  destruct (mulberry32_call (nth r h 0%Z)) as [n seed']. cbn [fst] in *.
  real_ops.
  destruct Hr as [H0 H1]. apply IZR_le in H0. apply IZR_lt in H1.
  split.
  - apply Rmult_le_pos; [lra|]. apply Rlt_le, Rinv_0_lt_compat. lra.
  - apply (Rmult_lt_reg_r 4294967296); [lra|]. field_simplify. lra.
Qed.

(** ** Grades and chart series over the reals *)

(** C5: after the first loop over [grade], the entry of a pair of consecutive
    samples is (elevation delta / 5280 / distance delta) x 100 when the
    distance delta is positive, and 0 when it is zero (or negative). *)
Theorem raw_grade_formula (pts : nat) (miles elev_ft : list R) (i : nat) :
  (1 <= i)%nat -> (i < pts)%nat ->
  let de := nth i elev_ft 0 - nth (i - 1) elev_ft 0 in
  let dx := nth i miles 0 - nth (i - 1) miles 0 in
  (0 < dx -> nth i (grade_raw pts miles elev_ft) 0 = de / 5280 / dx * 100) /\
  (dx <= 0 -> nth i (grade_raw pts miles elev_ft) 0 = 0).
Proof.
  intros H1 Hi. cbv zeta.
  pose proof (grade_raw_nth (F := R) pts miles elev_ft i H1 Hi) as Hg.
  cbv zeta in Hg. rewrite lit_zero_R in Hg. rewrite Hg. clear Hg.
  cbn [sub RNum].
  split; intros Hdx.
  - rewrite (proj2 (ltb_R _ _) Hdx). real_ops. field. lra.
  - rewrite (proj2 (ltb_R_false _ _) Hdx). reflexivity.
Qed.

Lemma raw_grade_formula_witness :
  nth 1%nat (grade_raw 2 [0; 1] [0; 52.8]) 0 = 1 /\
  nth 1%nat (grade_raw 2 [0; 0] [0; 52.8]) 0 = 0.
Proof.
  destruct (raw_grade_formula 2 [0; 1] [0; 52.8] 1) as [Hpos _]; [lia | lia |].
  destruct (raw_grade_formula 2 [0; 0] [0; 52.8] 1) as [_ Hzero]; [lia | lia |].
  cbn [nth Nat.sub] in Hpos, Hzero. split.
  - rewrite Hpos; lra.
  - apply Hzero. lra.
Defined.

Lemma miles_ascending (pts : nat) (totalMiles : R) :
  0 <= totalMiles -> ascending (miles_of pts totalMiles).
Proof.
  intros Htm i j Hij Hj. rewrite length_miles_of in Hj.
  destruct (Nat.eq_dec i j) as [->|Hne]; [lra|].
  rewrite <- lit_zero_R.
  rewrite !nth_miles_of by lia. rewrite !ofnat_R.
  assert (Hd : 0 < ofZ (F := R) (Z.of_nat pts - 1)).
  { real_ops. apply Rmult_lt_0_compat; [|lra]. apply IZR_lt. lia. }
  cbn [mul div RNum]. apply Rmult_le_compat_r.
  - apply Rlt_le, Rinv_0_lt_compat. exact Hd.
  - apply Rmult_le_compat_r; [exact Htm|]. apply le_INR. lia.
Qed.

Lemma routePreview_miles_ascending (pts : nat) (rider : Rider R) (totalMiles : R)
    (seed : Z) (h : Heap) :
  0 <= totalMiles ->
  ascending (miles (snd (eval (routePreview pts rider totalMiles seed) h))).
Proof.
  intros Htm.
  destruct (routePreview_shape pts rider totalMiles seed h)
    as (base & bump & h' & _ & _ & Hr).
  cbv zeta in Hr. rewrite Hr. cbn [snd miles].
  apply miles_ascending. exact Htm.
Qed.

(** C10: the arrays [miles], [speed] and [grade] of the result and the local
    array [elev_ft] all have the length of the profile, the 1600 points of the
    preview, and [miles] is in ascending order for a route of non-negative
    length. *)
Theorem parallel_series (totalMiles : R) (seed : Z) (h : Heap) :
  0 <= totalMiles ->
  let r := eval (routePreview 1600 preview_rider totalMiles seed) h in
  let p := eval (makeRoutePreview totalMiles seed) h in
  p = snd r /\
  length (miles p) = 1600%nat /\ length (speed p) = 1600%nat /\
  length (grade p) = 1600%nat /\ length (fst r) = 1600%nat /\
  ascending (miles p).
Proof.
  intros Htm. cbv zeta. rewrite makeRoutePreview_eval.
  destruct (routePreview_lengths 1600 (preview_rider (F := R)) totalMiles seed h)
    as (He & Hm & Hs & Hg).
  split; [reflexivity|]. split; [exact Hm|]. split; [exact Hs|].
  split; [exact Hg|]. split; [exact He|].
  apply routePreview_miles_ascending. exact Htm.
Qed.

Lemma parallel_series_witness :
  let r := eval (routePreview 1600 preview_rider 85 1337) [] in
  let p := eval (makeRoutePreview 85 1337) [] in
  p = snd r /\
  length (miles p) = 1600%nat /\ length (speed p) = 1600%nat /\
  length (grade p) = 1600%nat /\ length (fst r) = 1600%nat /\
  ascending (miles p).
Proof. apply (parallel_series 85 1337 []). lra. Defined.

(** C8 as stated fails: [makeRoutePreview(85, 1337)] returns as many grades as
    miles, 1600, and not one less. *)
Lemma grade_length_not_one_less :
  let p := snd (eval (routePreview (F := R) 1600 preview_rider 85 1337) []) in
  length (grade p) <> (length (miles p) - 1)%nat.
Proof.
  cbv zeta.
  destruct (routePreview_lengths 1600 (preview_rider (F := R)) 85 1337 [])
    as (_ & Hm & _ & Hg).
  cbv zeta in *. rewrite Hg, Hm. lia.
Qed.

(** ** The speed of one point, over the reals *)

Section RidePhysics.
Variable rider : Rider R.

Lemma theta_flat : Ride.theta 0 = 0.
Proof.
  unfold Ride.theta. real_ops.
  replace (0 / (100 * / 1)) with 0 by lra. apply atan_0.
Qed.

Lemma grav_flat : Ride.grav rider 0 = 0.
Proof. unfold Ride.grav. rewrite theta_flat. real_ops. rewrite sin_0. ring. Qed.

Lemma roll_flat : Ride.roll rider 0 = mass rider * Ride.g * Crr rider.
Proof. unfold Ride.roll. rewrite theta_flat. real_ops. rewrite cos_0. ring. Qed.

Lemma v_flat_R : Ride.v_flat rider = flat_mph rider * 0.44704.
Proof. unfold Ride.v_flat. real_ops. lra. Qed.

(** On the flat the seed is [v_flat], when that is at least the floor 2 of the seed. *)
Lemma seed_v_flat : 2 <= Ride.v_flat rider -> Ride.seed_v rider 0 = Ride.v_flat rider.
Proof.
  intros Hv. unfold Ride.seed_v.
  replace (ltb (F := R) 0 (lit 0)) with false.
  2:{ symmetry. apply ltb_R_false. rewrite lit_zero_R. lra. }
  real_ops. rewrite Rmax_right; lra.
Qed.

(** [P] is the power that [f] balances at [v_flat] on the flat: the calibration. *)
Lemma f_flat : Ride.f rider 0 (Ride.v_flat rider) = 0.
Proof.
  unfold Ride.f. rewrite grav_flat, roll_flat. unfold Ride.P, Ride.aero.
  real_ops. ring.
Qed.

(** A root of [f] that is at least 1 is a fixed point of the loop. *)
Lemma newton_step_root (gp v : R) :
  1 <= v -> Ride.f rider gp v = 0 -> Ride.newton_step rider gp v = v.
Proof.
  intros Hv Hf. unfold Ride.newton_step. rewrite Hf. real_ops.
  replace (v - 6 * / 10 * (0 / Rmax (1 * / 1000000) (Ride.df rider gp v))) with v.
  - apply Rmax_right. lra.
  - unfold Rdiv. ring.
Qed.

Lemma solve_flat : 2 <= Ride.v_flat rider -> Ride.solve rider 0 = Ride.v_flat rider.
Proof.
  intros Hv. unfold Ride.solve, for_loop. cbn [seq Nat.sub fold_left].
  rewrite seed_v_flat by exact Hv.
  do 6 (rewrite (newton_step_root 0 (Ride.v_flat rider))
          by first [apply f_flat | lra]).
  reflexivity.
Qed.

Lemma newton_step_floor (gp v : R) : 1 <= Ride.newton_step rider gp v.
Proof.
  unfold Ride.newton_step. real_ops.
  eapply Rle_trans; [|apply Rmax_l]. lra.
Qed.

Lemma solve_floor (gp : R) : 1 <= Ride.solve rider gp.
Proof.
  unfold Ride.solve, for_loop. cbn [seq Nat.sub fold_left].
  apply newton_step_floor.
Qed.

Lemma divisor_positive (gp v : R) : 0 < fmax (lit 1e-6) (Ride.df rider gp v).
Proof.
  real_ops. eapply Rlt_le_trans; [|apply Rmax_l]. lra.
Qed.

Lemma speed_at_floor (gp : R) (i : nat) (u : R) : 5 <= Ride.speed_at rider gp i u.
Proof.
  unfold Ride.speed_at. real_ops.
  eapply Rle_trans; [|apply Rmax_l]. lra.
Qed.

Lemma dip_range (i : nat) : -10 <= Ride.dip (F := R) i <= 0.
Proof.
  unfold Ride.dip.
  destruct (i mod 180 =? 0)%nat; [|destruct (i mod 310 =? 0)%nat]; real_ops; lra.
Qed.

Lemma dip_none (i : nat) :
  (i mod 180 <> 0)%nat -> (i mod 310 <> 0)%nat -> Ride.dip (F := R) i = 0.
Proof.
  intros H1 H2. unfold Ride.dip.
  apply Nat.eqb_neq in H1, H2. rewrite H1, H2. apply lit_zero_R.
Qed.

Lemma whoosh_climb (gp : R) (i : nat) : -4 <= gp -> Ride.whoosh gp i = 0.
Proof.
  intros Hg. unfold Ride.whoosh.
  replace (ltb (F := R) gp (lit (-4))) with false.
  - apply lit_zero_R.
  - symmetry. apply ltb_R_false. real_ops. lra.
Qed.

Lemma jitter_range (u : R) : 0 <= u < 1 -> -0.3 <= Ride.jitter u < 0.3.
Proof. intros Hu. unfold Ride.jitter. real_ops. lra. Qed.

(** The value returned on the flat: the calibrated speed in miles per hour,
    with the dip and the jitter of the preview, floored at 5. *)
Lemma speed_at_flat (i : nat) (u : R) :
  2 <= Ride.v_flat rider ->
  Ride.speed_at rider 0 i u =
    Rmax 5 (flat_mph rider * 0.44704 * 2.23694 + Ride.dip i + Ride.jitter u).
Proof.
  intros Hv. unfold Ride.speed_at.
  rewrite solve_flat by exact Hv. rewrite whoosh_climb by lra. rewrite v_flat_R.
  real_ops. f_equal; lra.
Qed.

(** C1, as the code has it: with grade 0 (the code has no wind) and a flat
    speed from 4.474 to 600 mph, the speed that the Newton loop solves,
    converted to mph, is the flat speed within 0.001 mph; the speed returned
    adds the dip and the jitter of the preview, so that where no dip applies
    (index not a multiple of 180 or 310) and the flat speed is at least 5.4
    mph it is the flat speed within 0.301 mph. *)
Theorem flat_calibration :
  4.474 <= flat_mph rider <= 600 ->
  Rabs (Ride.solve rider 0 * 2.23694 - flat_mph rider) <= 0.001 /\
  forall (i : nat) (u : R),
    (i mod 180 <> 0)%nat -> (i mod 310 <> 0)%nat -> 0 <= u < 1 ->
    5.4 <= flat_mph rider ->
    Rabs (Ride.speed_at rider 0 i u - flat_mph rider) <= 0.301.
Proof.
  intros Hf.
  assert (Hv : 2 <= Ride.v_flat rider) by (rewrite v_flat_R; lra).
  split.
  - rewrite solve_flat by exact Hv. rewrite v_flat_R.
    apply Rabs_le. lra.
  - intros i u H180 H310 Hu Hf5.
    rewrite speed_at_flat by exact Hv. rewrite dip_none by assumption.
    pose proof (jitter_range u Hu) as Hj.
    rewrite Rmax_right by lra. apply Rabs_le. lra.
Qed.


Lemma derivable_pt_lim_pointwise (f1 f2 : R -> R) (x l : R) :
  (forall y : R, f1 y = f2 y) -> derivable_pt_lim f1 x l -> derivable_pt_lim f2 x l.
Proof.
  intros Heq Hd eps Heps. destruct (Hd eps Heps) as [delta Hdelta].
  exists delta. intros y Hy Hlt. rewrite <- !Heq. apply Hdelta; assumption.
Qed.

(** [f] is a cubic in [v], and its derivative has three times the drag. *)
Lemma f_derivative (gp v : R) :
  derivable_pt_lim (Ride.f rider gp) v
    (Ride.grav rider gp + Ride.roll rider gp + 3 * Ride.aero rider v).
Proof.
  set (c := Ride.grav rider gp + Ride.roll rider gp).
  set (k := 0.5 * 1.225 * CdA rider).
  apply (derivable_pt_lim_pointwise
           (id * (fct_cte c + mult_real_fct k (id * id)) - fct_cte (Ride.P rider))%F).
  { intros x.
    unfold Ride.f, Ride.aero, Ride.rho, mult_fct, plus_fct, minus_fct, mult_real_fct,
      fct_cte, id, c, k. real_ops. lra. }
  replace (c + 3 * Ride.aero rider v)
    with (1 * (fct_cte c + mult_real_fct k (id * id))%F v
          + id v * (0 + k * (1 * id v + id v * 1)) - 0).
  - apply derivable_pt_lim_minus; [|apply derivable_pt_lim_const].
    apply derivable_pt_lim_mult; [apply derivable_pt_lim_id|].
    apply derivable_pt_lim_plus; [apply derivable_pt_lim_const|].
    apply derivable_pt_lim_scal.
    apply derivable_pt_lim_mult; apply derivable_pt_lim_id.
  - unfold Ride.aero, Ride.rho, mult_fct, plus_fct, mult_real_fct, fct_cte, id, k.
    real_ops. lra.
Qed.

End RidePhysics.

(** ** The flat, the floor and the derivative at the constants of the preview *)

Lemma preview_v_flat : Ride.v_flat (F := R) preview_rider = 8.27024.
Proof. rewrite v_flat_R. unfold preview_rider. real_ops. lra. Qed.

Lemma flat_calibration_witness :
  Rabs (Ride.solve preview_rider 0 * 2.23694 - flat_mph preview_rider) <= 0.001 /\
  Rabs (Ride.speed_at preview_rider 0 1 0.5 - flat_mph preview_rider) <= 0.301.
Proof.
  assert (Hf : 5.4 <= flat_mph (F := R) preview_rider <= 600)
    by (unfold preview_rider; real_ops; lra).
  destruct (flat_calibration preview_rider) as [Hs Hr]; [lra|].
  split; [exact Hs|].
  apply Hr; [discriminate | discriminate | lra | lra].
Defined.

(** Why the flat speed is bounded in [flat_calibration]: the loop never goes
    below 1 m/s, so a rider of 1 mph is solved at 2.23694 mph or more; and
    the two conversion factors do not cancel, so at 1000 mph the solved speed
    is off by more than 0.0016 mph. *)
Lemma slow_rider_not_calibrated (rider : Rider R) :
  flat_mph rider = 1 -> ~ Rabs (Ride.solve rider 0 * 2.23694 - flat_mph rider) <= 0.001.
Proof.
  intros Hf. rewrite Hf. pose proof (solve_floor rider 0) as Hs.
  unfold Rabs. destruct (Rcase_abs _); lra.
Qed.

Lemma fast_rider_not_calibrated (rider : Rider R) :
  flat_mph rider = 1000 -> ~ Rabs (Ride.solve rider 0 * 2.23694 - flat_mph rider) <= 0.001.
Proof.
  intros Hf.
  rewrite solve_flat by (rewrite v_flat_R, Hf; lra).
  rewrite v_flat_R, Hf. unfold Rabs. destruct (Rcase_abs _); lra.
Qed.

(** C1 as stated fails: the first speed that [makeRoutePreview(85, 1337)]
    returns is computed at grade 0 with [flat_mph = 18.5], and it is at most
    12.81 mph, because the index 0 takes the dip of 6 mph and the jitter is
    below 0.3 mph. *)
Lemma returned_speed_not_calibrated :
  let p := eval (makeRoutePreview 85 1337) [] in
  nth 0 (grade p) 0 = 0 /\ ~ Rabs (nth 0 (speed p) 0 - 18.5) <= 0.001.
Proof.
  cbv zeta. rewrite makeRoutePreview_eval.
  pose proof (routePreview_grade_first (F := R) 1600 preview_rider 85 1337 []) as Hg.
  destruct (routePreview_speed_nth (F := R) 1600 preview_rider 85 1337 [] 0 ltac:(lia))
    as (u & Hu & Hs).
  rewrite lit_zero_R in Hg, Hs. split; [exact Hg|].
  rewrite Hs, Hg. apply rng_output_range in Hu.
  rewrite speed_at_flat by (rewrite preview_v_flat; lra).
  pose proof (jitter_range u Hu) as Hj.
  assert (Hd : Ride.dip (F := R) 0 = -6) by (unfold Ride.dip; cbn; real_ops; lra).
  rewrite Hd. unfold preview_rider. real_ops.
  intros Habs. revert Habs. unfold Rabs.
  destruct (Rcase_abs _) as [Hneg|Hpos]; revert Hneg || revert Hpos;
    apply Rmax_case_strong; intros; lra.
Qed.

(** Every speed that a run returns is at least 5 mph. *)
Lemma routePreview_speed_floor (pts : nat) (rider : Rider R) (totalMiles : R) (seed : Z)
    (h : Heap) (k : nat) :
  (k < pts)%nat ->
  5 <= nth k (speed (snd (eval (routePreview pts rider totalMiles seed) h))) 0.
Proof.
  intros Hk.
  destruct (routePreview_speed_nth (F := R) pts rider totalMiles seed h k Hk)
    as (u & _ & Hs).
  rewrite lit_zero_R in Hs. rewrite Hs. apply speed_at_floor.
Qed.

Lemma df_not_derivative (rider : Rider R) (gp v : R) :
  CdA rider <> 0 -> v <> 0 ->
  ~ derivable_pt_lim (Ride.f rider gp) v (Ride.df rider gp v).
Proof.
  intros Hc Hv Hd.
  pose proof (uniqueness_limite _ _ _ _ Hd (f_derivative rider gp v)) as Heq.
  unfold Ride.df in Heq.
  assert (Ha : Ride.aero rider v = 0) by (real_ops; lra).
  unfold Ride.aero, Ride.rho in Ha. real_ops.
  assert (Hz : CdA rider * v * v = 0) by lra.
  apply Rmult_integral in Hz. destruct Hz as [Hz|Hz]; [|contradiction].
  apply Rmult_integral in Hz. tauto.
Qed.

(** C6, where the code departs from it: the slope [df] that the loop divides
    by is not the derivative of [f].  On the flat at the calibrated speed, the
    derivative is [roll + 3 * aero] and [df] is [roll + 1.5 * aero]. *)
Theorem df_is_not_the_derivative :
  let v := Ride.v_flat (F := R) preview_rider in
  derivable_pt_lim (Ride.f preview_rider 0) v
    (Ride.grav preview_rider 0 + Ride.roll preview_rider 0 + 3 * Ride.aero preview_rider v) /\
  Ride.df preview_rider 0 v =
    Ride.grav preview_rider 0 + Ride.roll preview_rider 0 + 1.5 * Ride.aero preview_rider v /\
  0 < Ride.aero preview_rider v /\
  ~ derivable_pt_lim (Ride.f preview_rider 0) v (Ride.df preview_rider 0 v).
Proof.
  cbv zeta. split; [apply f_derivative|]. split.
  { unfold Ride.df. real_ops. lra. }
  split.
  { rewrite preview_v_flat. unfold Ride.aero, Ride.rho, preview_rider. real_ops. lra. }
  apply df_not_derivative.
  - unfold preview_rider. real_ops. lra.
  - rewrite preview_v_flat. lra.
Qed.

(** ** The response of the speed to the grade *)

(** The resisting force of the grade, without the angle. *)
Lemma resist_R (rider : Rider R) (gp : R) :
  Ride.grav rider gp + Ride.roll rider gp =
    mass rider * 9.80665 * (gp / 100 + Crr rider) / sqrt (1 + (gp / 100) * (gp / 100)).
Proof.
  unfold Ride.grav, Ride.roll, Ride.theta, Ride.g. real_ops.
  rewrite sin_atan, cos_atan. unfold Rsqr.
  replace (gp / (100 * / 1)) with (gp / 100) by lra.
  assert (Hs : 0 < sqrt (1 + gp / 100 * (gp / 100))).
  { apply sqrt_lt_R0. nra. }
  field. lra.
Qed.






Lemma newton_step_on (rider : Rider R) (gp v : R) :
  Ride.newton_step rider gp v =
    newton_on (0.5 * 1.225 * CdA rider) (Ride.P rider)
              (Ride.grav rider gp + Ride.roll rider gp) v.
Proof.
  unfold Ride.newton_step, newton_on, Ride.f, Ride.df, Ride.aero, Ride.rho.
  set (c := Ride.grav rider gp + Ride.roll rider gp). set (P := Ride.P rider).
  real_ops.
  replace (Rmax (1 * / 1000000) (c + 15 * / 10 * (5 * / 10 * (1225 * / 1000) * CdA rider * v * v)))
    with (Rmax 1e-6 (c + 1.5 * (0.5 * 1.225 * CdA rider * v * v)))
    by (f_equal; lra).
  set (M := Rmax 1e-6 _). f_equal; unfold Rdiv; lra.
Qed.


Lemma preview_resist_eq (gp : R) :
  Ride.grav (F := R) preview_rider gp + Ride.roll preview_rider gp
  = 608.0123 * ((gp / 100 + 0.004) / sqrt (1 + gp / 100 * (gp / 100))).
Proof.
  rewrite resist_R. unfold preview_rider. real_ops.
  unfold Rdiv. lra.
Qed.

Section PreviewRider.
Local Abbreviation rider := (preview_rider (F := R)).
Local Abbreviation resist gp := (Ride.grav rider gp + Ride.roll rider gp).

Lemma preview_drag : 0.5 * 1.225 * CdA rider = 0.18375.
Proof. unfold preview_rider. real_ops. lra. Qed.














End PreviewRider.

(** *** Descents: the order can fail *)

(** An enclosure of one turn of the loop, from two polynomial inequalities. *)
Lemma newton_on_enclosure (k P c v lo hi : R) :
  1 <= lo -> 1e-6 <= c + 1.5 * (k * v * v) ->
  0.6 * (v * (c + k * v * v) - P) <= (v - lo) * (c + 1.5 * (k * v * v)) ->
  (v - hi) * (c + 1.5 * (k * v * v)) <= 0.6 * (v * (c + k * v * v) - P) ->
  lo <= newton_on k P c v <= hi.
Proof.
  intros Hlo HD H1 H2. unfold newton_on.
  rewrite (Rmax_right 1e-6 _) by exact HD.
  set (D := c + 1.5 * (k * v * v)) in *. set (f := v * (c + k * v * v) - P) in *.
  assert (HDp : 0 < D) by lra.
  assert (Hq1 : 0.6 * (f / D) <= v - lo).
  { apply (Rmult_le_reg_r D); [exact HDp|].
    replace (0.6 * (f / D) * D) with (0.6 * f) by (field; lra). exact H1. }
  assert (Hq2 : v - hi <= 0.6 * (f / D)).
  { apply (Rmult_le_reg_r D); [exact HDp|].
    replace (0.6 * (f / D) * D) with (0.6 * f) by (field; lra). exact H2. }
  rewrite Rmax_right by lra. lra.
Qed.

(** Writes a speed [v] enclosed in [lo, lo + w] as [lo + t], with the bounds
    on the powers of [t] that the polynomial inequalities need. *)
Ltac shift_to lo w v :=
  let t := fresh "t" in
  let Ht := fresh "Ht" in
  assert (Ht : exists t, v = lo + t /\ 0 <= t <= w) by (exists (v - lo); lra);
  destruct Ht as (t & -> & Ht);
  assert (0 <= t * t <= w * t) by nra;
  assert (0 <= t * t * t <= w * w * t) by nra.

Ltac enclose lo w v :=
  shift_to lo w v; apply newton_on_enclosure; [lra | nra | nra | nra].

Lemma preview_power_tight :
  124.0533 <= Ride.P (F := R) preview_rider <= 124.0534.
Proof.
  unfold Ride.P, Ride.rho, Ride.g. rewrite preview_v_flat.
  unfold preview_rider. real_ops. lra.
Qed.

(** The grades -1840/423 and -1175/276 percent (about -4.35 and -4.26) have
    rational sines and cosines, of the triangles (92, 2115, 2117) and
    (47, 1104, 1105). *)
Lemma preview_resist_a :
  Ride.grav (F := R) preview_rider (-1840 / 423) + Ride.roll preview_rider (-1840 / 423)
  = -25396673771 / 1058500000.
Proof.
  rewrite preview_resist_eq.
  replace (sqrt (1 + -1840 / 423 / 100 * (-1840 / 423 / 100))) with (2117 / 2115).
  - lra.
  - symmetry. apply sqrt_lem_1; lra.
Qed.

Lemma preview_resist_b :
  Ride.grav (F := R) preview_rider (-1175 / 276) + Ride.roll preview_rider (-1175 / 276)
  = -32364494729 / 1381250000.
Proof.
  rewrite preview_resist_eq.
  replace (sqrt (1 + -1175 / 276 / 100 * (-1175 / 276 / 100))) with (1105 / 1104).
  - lra.
  - symmetry. apply sqrt_lem_1; lra.
Qed.

Lemma preview_seed_descent (gp : R) :
  gp < 0 -> 2 <= 8.27024 - gp * 0.3 ->
  Ride.seed_v (F := R) preview_rider gp = 8.27024 - gp * 0.3.
Proof.
  intros Hg Hv. unfold Ride.seed_v. rewrite preview_v_flat.
  replace (ltb (F := R) gp (lit 0)) with true.
  2:{ symmetry. apply ltb_R. rewrite lit_zero_R. exact Hg. }
  cbn [fabs RNum]. rewrite Rabs_left by exact Hg.
  real_ops. rewrite Rmax_right; lra.
Qed.

(** The loop on the first of the two grades ends at 12.86 m/s or less. *)
Lemma solve_descent_a : Ride.solve (F := R) preview_rider (-1840 / 423) <= 12.86.
Proof.
  unfold Ride.solve, for_loop. cbn [seq Nat.sub fold_left].
  rewrite preview_seed_descent by lra.
  rewrite !newton_step_on, preview_drag, preview_resist_a.
  pose proof preview_power_tight as HP.
  generalize dependent (Ride.P (F := R) preview_rider). intros P HP.
  set (c := -25396673771 / 1058500000).
  assert (H1 : 99.97 <= newton_on 0.18375 P c (8.27024 - -1840 / 423 * 0.3) <= 99.99).
  { unfold c. apply newton_on_enclosure; lra. }
  generalize dependent (newton_on 0.18375 P c (8.27024 - -1840 / 423 * 0.3)). intros v1 H1.
  assert (H2 : 60.18 <= newton_on 0.18375 P c v1 <= 60.2) by (unfold c; enclose 99.97 0.02 v1).
  generalize dependent (newton_on 0.18375 P c v1). intros v2 H2. clear H1 v1.
  assert (H3 : 36.47 <= newton_on 0.18375 P c v2 <= 36.5) by (unfold c; enclose 60.18 0.02 v2).
  generalize dependent (newton_on 0.18375 P c v2). intros v3 H3. clear H2 v2.
  assert (H4 : 22.6 <= newton_on 0.18375 P c v3 <= 22.64) by (unfold c; enclose 36.47 0.03 v3).
  generalize dependent (newton_on 0.18375 P c v3). intros v4 H4. clear H3 v3.
  assert (H5 : 15.12 <= newton_on 0.18375 P c v4 <= 15.15) by (unfold c; enclose 22.6 0.04 v4).
  generalize dependent (newton_on 0.18375 P c v4). intros v5 H5. clear H4 v4.
  assert (H6 : 12.82 <= newton_on 0.18375 P c v5 <= 12.86) by (unfold c; enclose 15.12 0.03 v5).
  lra.
Qed.

(** On the second, less steep, it ends at 13.45 m/s or more. *)
Lemma solve_descent_b : 13.45 <= Ride.solve (F := R) preview_rider (-1175 / 276).
Proof.
  unfold Ride.solve, for_loop. cbn [seq Nat.sub fold_left].
  rewrite preview_seed_descent by lra.
  rewrite !newton_step_on, preview_drag, preview_resist_b.
  pose proof preview_power_tight as HP.
  generalize dependent (Ride.P (F := R) preview_rider). intros P HP.
  set (c := -32364494729 / 1381250000).
  assert (H1 : 76.12 <= newton_on 0.18375 P c (8.27024 - -1175 / 276 * 0.3) <= 76.14).
  { unfold c. apply newton_on_enclosure; lra. }
  generalize dependent (newton_on 0.18375 P c (8.27024 - -1175 / 276 * 0.3)). intros v1 H1.
  assert (H2 : 45.94 <= newton_on 0.18375 P c v1 <= 45.96) by (unfold c; enclose 76.12 0.02 v1).
  generalize dependent (newton_on 0.18375 P c v1). intros v2 H2. clear H1 v1.
  assert (H3 : 28.08 <= newton_on 0.18375 P c v2 <= 28.1) by (unfold c; enclose 45.94 0.02 v2).
  generalize dependent (newton_on 0.18375 P c v2). intros v3 H3. clear H2 v2.
  assert (H4 : 17.9 <= newton_on 0.18375 P c v3 <= 17.93) by (unfold c; enclose 28.08 0.02 v3).
  generalize dependent (newton_on 0.18375 P c v3). intros v4 H4. clear H3 v3.
  assert (H5 : 13.17 <= newton_on 0.18375 P c v4 <= 13.2) by (unfold c; enclose 17.9 0.03 v4).
  generalize dependent (newton_on 0.18375 P c v4). intros v5 H5. clear H4 v4.
  assert (H6 : 13.45 <= newton_on 0.18375 P c v5 <= 13.5) by (unfold c; enclose 13.17 0.03 v5).
  lra.
Qed.

(** On descents the six turns do not keep the order: the steeper of these
    two descents is solved at the lower speed. *)
Lemma descent_order_fails :
  -1840 / 423 < -1175 / 276 /\
  Ride.solve (F := R) preview_rider (-1840 / 423)
  < Ride.solve preview_rider (-1175 / 276).
Proof.
  split; [lra|]. pose proof solve_descent_a. pose proof solve_descent_b. lra.
Qed.




(** ** Runs do not depend on the heap *)

Lemma related_ret {A} (r1 r2 : Rng) (a : A) : related r1 r2 (ret a) (ret a).
Proof. intros h1 h2 Hc. split; [reflexivity | exact Hc]. Qed.

Lemma related_bind {A B} (r1 r2 : Rng) (c1 c2 : M A) (k1 k2 : A -> M B) :
  related r1 r2 c1 c2 -> (forall a : A, related r1 r2 (k1 a) (k2 a)) ->
  related r1 r2 (bind c1 k1) (bind c2 k2).
Proof.
  intros Hc Hk h1 h2 Hcell. unfold bind.
  destruct (Hc h1 h2 Hcell) as [Hfst Hcell'].
  destruct (c1 h1) as [a1 h1'], (c2 h2) as [a2 h2']. simpl in *. subst a2.
  apply Hk. exact Hcell'.
Qed.

Lemma related_call {F} `{Num F} (r1 r2 : Rng) : related r1 r2 (call (F := F) r1) (call r2).
Proof.
  intros h1 h2 (H1 & H2 & Heq). unfold call. rewrite Heq.
  destruct (mulberry32_call (nth r2 h2 0%Z)) as [u seed']. cbn [fst snd].
  split; [reflexivity|]. unfold same_cell, Rng, Heap in *. rewrite !length_insert.
  rewrite !nth_insert_eq by assumption. auto.
Qed.

Lemma related_mapiM {A B} (r1 r2 : Rng) (f1 f2 : nat -> A -> M B) (l : list A) :
  (forall i x, related r1 r2 (f1 i x) (f2 i x)) ->
  forall i : nat, related r1 r2 (mapiM f1 i l) (mapiM f2 i l).
Proof.
  intros Hf. induction l as [|x l IH]; intros i; simpl.
  - apply related_ret.
  - apply related_bind; [apply Hf|]. intros y.
    apply related_bind; [apply IH|]. intros ys. apply related_ret.
Qed.

(** A run whose generator starts from the same captured value returns the
    same result. *)
Lemma related_run {A} (r1 r2 : Rng) (c1 c2 : M A) (h1 h2 : Heap) :
  related r1 r2 c1 c2 -> same_cell r1 h1 r2 h2 -> fst (c1 h1) = fst (c2 h2).
Proof. intros Hrel Hcell. apply (Hrel h1 h2 Hcell). Qed.

Lemma run_mulberry32 {A} (seed : Z) (k : Rng -> M A) (h : Heap) :
  bind (mulberry32 seed) k h = k (length h) (h ++ [seed]).
Proof. reflexivity. Qed.

(** [mulberry32(seed)] makes a generator of its own, whatever the heap holds. *)
Lemma fresh_cells (seed : Z) (h1 h2 : Heap) :
  same_cell (length h1) (h1 ++ [seed]) (length h2) (h2 ++ [seed]).
Proof.
  unfold same_cell. rewrite !length_app. simpl.
  rewrite !nth_middle. repeat split; lia.
Qed.

Section Determinism.
Context {F : Type} `{Num F} `{Trig F}.

Lemma related_noiseSeries (r1 r2 : Rng) (n : nat) (s : Z) :
  related r1 r2 (noiseSeries (F := F) n r1 s) (noiseSeries n r2 s).
Proof.
  unfold noiseSeries. apply related_bind.
  - apply related_mapiM. intros i x.
    apply related_bind; [apply related_call|]. intros u. apply related_ret.
  - intros a. apply related_ret.
Qed.

Lemma routePreview_heap (pts : nat) (rider : Rider F) (totalMiles : F) (seed : Z)
    (h1 h2 : Heap) :
  eval (routePreview pts rider totalMiles seed) h1
  = eval (routePreview pts rider totalMiles seed) h2.
Proof.
  unfold eval, routePreview. cbv zeta. rewrite !run_mulberry32.
  apply (related_run (length h1) (length h2)); [|apply fresh_cells].
  apply related_bind; [apply related_noiseSeries|]. intros base.
  apply related_bind; [apply related_noiseSeries|]. intros bump.
  apply related_bind; [|intros sp; apply related_ret].
  apply related_mapiM. intros i gp.
  apply related_bind; [apply related_call|]. intros u. apply related_ret.
Qed.

Lemma returned_object_heap (pts : nat) (rider : Rider F) (totalMiles : F) (seed : Z)
    (h1 h2 : Heap) :
  eval (bind (routePreview pts rider totalMiles seed) (fun r => ret (snd r))) h1
  = eval (bind (routePreview pts rider totalMiles seed) (fun r => ret (snd r))) h2.
Proof.
  pose proof (routePreview_heap pts rider totalMiles seed h1 h2) as Hr.
  unfold eval, bind in *.
  destruct (routePreview pts rider totalMiles seed h1) as [r1 h1'].
  destruct (routePreview pts rider totalMiles seed h2) as [r2 h2'].
  cbn [fst] in *. subst r2. reflexivity.
Qed.

(** C9: the result of [makeRoutePreview] is the same in every heap, so it is
    a function of [totalMiles] and [seed] alone; in particular a second run,
    in the heap that a first run has left, returns what the first returned. *)
Theorem preview_deterministic (totalMiles : F) (seed : Z) (h1 h2 : Heap) :
  eval (makeRoutePreview totalMiles seed) h1 = eval (makeRoutePreview totalMiles seed) h2 /\
  eval (makeRoutePreview totalMiles seed) (snd (makeRoutePreview totalMiles seed h1))
  = eval (makeRoutePreview totalMiles seed) h1.
Proof.
  split.
  - exact (returned_object_heap 1600 preview_rider totalMiles seed h1 h2).
  - exact (returned_object_heap 1600 preview_rider totalMiles seed _ h1).
Qed.

End Determinism.

(** ** The aggregate of the specification *)

Section Aggregate.
Context {F : Type} `{Num F}.
Local Open Scope num_scope.

(** C4: in the aggregate as the specification defines it, the predicted time
    is the sum over the segments of distance over speed, and the predicted
    average is the total distance over the predicted time. *)
Theorem average_speed_identity (dist_mi speed_mph : list F) :
  let r := aggregate dist_mi speed_mph in
  pred_time_h r =
    sum_list (zip_with (fun d v => d / v) (segment_distances dist_mi) speed_mph) /\
  distance_mi r = sum_list (segment_distances dist_mi) /\
  pred_avg_mph r = distance_mi r / pred_time_h r.
Proof. cbv zeta. repeat split. Qed.

End Aggregate.

(** Two miles, one at 10 mph and one at 30 mph, take 2/15 h: the predicted
    average is 15 mph, and the arithmetic mean of the speeds is 20 mph. *)
Example average_is_not_the_mean :
  pred_avg_mph (aggregate [0; 1; 2]%Q [10; 30]%Q) = 15%Q /\
  mean_speed [10; 30]%Q = 20%Q.
Proof. split; vm_compute; reflexivity. Qed.

(** ** The generator and the noise on small inputs *)

Example mulberry32_first_calls :
  mulberry32_call 1337 = (792042790, 1831567150)%Z /\
  mulberry32_call 1831567150 = (815997621, 3663132963)%Z.
Proof. split; vm_compute; reflexivity. Qed.

Example noiseSeries_constant :
  noiseSmooth 4 [1; 1; 1; 1]%Q 1 = [1; 1; 1; 1]%Q.
Proof. vm_compute. reflexivity. Qed.

(** * Further properties of the code *)

(** ** The generator *)




(** X2: [rng()] is an unsigned 32-bit integer divided by 2^32, so a number
    from 0 to 1, 1 excluded, in every heap. *)
Theorem rng_unit_interval (r : Rng) (h : Heap) :
  exists n : Z,
    (0 <= n < 4294967296)%Z /\
    fst (call (F := R) r h) = (IZR n / 4294967296)%R /\
    (0 <= fst (call (F := R) r h) < 1)%R.
Proof.
  unfold call.
  pose proof (mulberry32_call_range (nth r h 0%Z)) as Hr.
  destruct (mulberry32_call (nth r h 0%Z)) as [n seed']. cbn [fst] in *.
  exists n. split; [exact Hr|].
  assert (Hq : (ofZ n / lit 4294967296)%num = (IZR n / 4294967296)%R).
  { unfold ofZ. cbn [div lit RNum]. unfold Q2R, inject_Z. cbn [Qnum Qden].
    rewrite Rinv_1, !Rmult_1_r. reflexivity. }
  rewrite Hq. split; [reflexivity|].
  destruct Hr as [H0 H1]. apply IZR_le in H0. apply IZR_lt in H1.
  split.
  - apply Rmult_le_pos; [exact H0|]. apply Rlt_le, Rinv_0_lt_compat. lra.
  - apply Rmult_lt_reg_r with 4294967296%R; [lra|].
    unfold Rdiv. rewrite Rmult_assoc, Rinv_l by lra. lra.
Qed.

(** ** What a run does to the heap *)

Lemma bind_run {A B} (c : M A) (k : A -> M B) (h : Heap) :
  bind c k h = k (fst (c h)) (snd (c h)).
Proof. unfold bind. destruct (c h). reflexivity. Qed.


Lemma fst_ret {A} (a : A) (h : Heap) : fst (ret a h) = a.
Proof. reflexivity. Qed.











(** ** The noise series *)

(** The inner loop of [noiseSeries] counts its turns in [c] and adds one
    entry to [S] at each turn. *)
Lemma window_fold_count {F} `{Num F} (x : Z -> F) (lo : Z) (l : list nat) :
  forall (S0 : F) (c0 : nat),
    snd (fold_left (fun st t => (fun k '(S', c) => ((S' + x k)%num, (c + 1)%nat))
                                  (lo + Z.of_nat t)%Z st) l (S0, c0))
    = (c0 + length l)%nat.
Proof.
  induction l as [|t l IH]; intros S0 c0; cbn [fold_left length].
  - cbn [snd]. lia.
  - specialize (IH (S0 + x (lo + Z.of_nat t)%Z)%num (c0 + 1)%nat).
    cbv beta iota in IH |- *. rewrite IH. lia.
Qed.

Lemma window_fold_bounds (x : Z -> R) (a b : R) (lo : Z) (l : list nat) :
  (forall k : Z, a <= x k <= b) ->
  forall (S0 : R) (c0 : nat),
    S0 + INR (length l) * a
    <= fst (fold_left (fun st t => (fun k '(S', c) => ((S' + x k)%num, (c + 1)%nat))
                                     (lo + Z.of_nat t)%Z st) l (S0, c0))
    <= S0 + INR (length l) * b.
Proof.
  intros Hx. induction l as [|t l IH]; intros S0 c0.
  - cbn [fold_left length fst INR]. lra.
  - cbn [fold_left]. specialize (IH (S0 + x (lo + Z.of_nat t)%Z) (c0 + 1)%nat).
    change (length (t :: l)) with (S (length l)). rewrite S_INR.
    cbv beta iota in IH |- *. cbn [add RNum] in IH |- *.
    pose proof (Hx (lo + Z.of_nat t)%Z). lra.
Qed.

(** What the outer loop stores at index [i]: the sum over the window, with
    the indices clamped to the array, over the number of its entries. *)
Lemma noiseSmooth_nth {F} `{Num F} (n : nat) (a : list F) (s : Z) (i : nat) (d : F) :
  (i < n)%nat ->
  nth i (noiseSmooth n a s) d =
    let w := Z.max 1 (Int32.or s 0) in
    let st := for_loopZ (- w) w (fun k '(S', c) =>
                let j := Z.min (Z.of_nat n - 1) (Z.max 0 (Z.of_nat i + k)) in
                ((S' + nth (Z.to_nat j) a (lit 0))%num, (c + 1)%nat)) (lit 0, 0%nat) in
    (fst st / ofnat (snd st))%num.
Proof.
  intros Hi. unfold noiseSmooth. cbv zeta.
  set (g := fun (i : nat) (_ : list F) =>
    let st := for_loopZ (- Z.max 1 (Int32.or s 0)) (Z.max 1 (Int32.or s 0))
        (fun k '(S', c) =>
           let j := Z.min (Z.of_nat n - 1) (Z.max 0 (Z.of_nat i + k)) in
           ((S' + nth (Z.to_nat j) a (lit 0))%num, (c + 1)%nat)) (lit 0, 0%nat) in
    (fst st / ofnat (snd st))%num).
  rewrite (for_loop_ext _ _ _ (fun i o => <[i := g i o]> o)).
  - rewrite array_loop_written; [reflexivity | lia | exact Hi |].
    rewrite length_replicate. exact Hi.
  - intros j o. unfold g. cbv zeta. destruct (for_loopZ _ _ _ _) as [S' c]. reflexivity.
Qed.

Lemma window_size (s : Z) :
  let w := Z.max 1 (Int32.or s 0) in
  (3 <= Z.to_nat (w - - w + 1))%nat.
Proof. cbv zeta. lia. Qed.

(** The average over the window of entries between -1 and 1 is between -1
    and 1. *)
Lemma noiseSmooth_range (n : nat) (a : list R) (s : Z) (i : nat) :
  (forall j : nat, -1 <= nth j a 0 <= 1) ->
  -1 <= nth i (noiseSmooth n a s) 0 <= 1.
Proof.
  intros Ha. destruct (le_lt_dec n i) as [Hge|Hlt].
  - rewrite nth_overflow by (rewrite length_noiseSmooth; exact Hge). lra.
  - rewrite noiseSmooth_nth by exact Hlt. cbv zeta.
    set (w := Z.max 1 (Int32.or s 0)).
    set (x := fun k : Z =>
      nth (Z.to_nat (Z.min (Z.of_nat n - 1) (Z.max 0 (Z.of_nat i + k)))) a (lit 0)).
    unfold for_loopZ.
    pose proof (window_fold_count x (- w) (seq 0 (Z.to_nat (w - - w + 1))) (lit 0) 0%nat) as Hc.
    pose proof (window_fold_bounds x (-1) 1 (- w) (seq 0 (Z.to_nat (w - - w + 1)))) as Hb.
    specialize (Hb ltac:(intros k; unfold x; rewrite lit_zero_R; apply Ha) (lit 0) 0%nat).
    rewrite length_seq in Hc, Hb. pose proof (window_size s) as Hw. cbv zeta in Hw.
    fold w in Hw. set (m := Z.to_nat (w - - w + 1)) in *.
    unfold x in Hc, Hb. cbv beta in Hc, Hb.
    destruct (fold_left _ _ _) as [S' c]. cbn [fst snd] in *. subst c.
    rewrite ofnat_R, lit_zero_R in *. cbn [div RNum].
    assert (Hm : 3 <= INR m) by (pose proof (le_INR 3 m Hw) as Hm; simpl in Hm; lra).
    split.
    + apply (Rmult_le_reg_r (INR m)); [lra|]. unfold Rdiv.
      rewrite Rmult_assoc, Rinv_l by lra. lra.
    + apply (Rmult_le_reg_r (INR m)); [lra|]. unfold Rdiv.
      rewrite Rmult_assoc, Rinv_l by lra. lra.
Qed.

Lemma noiseSeries_between (n : nat) (r : Rng) (s : Z) (h : Heap) (i : nat) :
  -1 <= nth i (fst (noiseSeries (F := R) n r s h)) 0 <= 1.
Proof.
  unfold noiseSeries. rewrite bind_run, fst_ret.
  apply noiseSmooth_range. intros j.
  set (f := fun (_ : nat) (_ : unit) => let! u := call (F := R) r in ret (u * lit 2 - lit 1)%num).
  destruct (le_lt_dec (length (replicate n tt)) j) as [Hge|Hlt].
  - rewrite nth_overflow by (rewrite mapiM_length; exact Hge). lra.
  - destruct (mapiM_nth f (replicate n tt) tt 0 0%nat h j Hlt) as [h' Hh'].
    rewrite Hh'. unfold f. rewrite bind_run, fst_ret.
    pose proof (rng_output_range _ (ex_intro _ r (ex_intro _ h' eq_refl))) as Hu.
    real_ops. lra.
Qed.

(** X5: A noise series has the length asked for and every number of it is
    between -1 and 1, whatever the window and the state of the generator. *)
Theorem noiseSeries_range (n : nat) (r : Rng) (s : Z) (h : Heap) :
  let o := fst (noiseSeries (F := R) n r s h) in
  length o = n /\ Forall (fun x => -1 <= x <= 1) o.
Proof.
  cbv zeta. split; [apply length_noiseSeries|].
  apply Forall_lookup. intros i x Hx.
  pose proof (noiseSeries_between n r s h i) as Hi.
  rewrite nth_lookup, Hx in Hi. exact Hi.
Qed.

Lemma window_fold_constant (x : Z -> R) (v : R) (lo : Z) (l : list nat) :
  (forall t : nat, In t l -> x (lo + Z.of_nat t)%Z = v) ->
  forall (S0 : R) (c0 : nat),
    fst (fold_left (fun st t => (fun k '(S', c) => ((S' + x k)%num, (c + 1)%nat))
                                  (lo + Z.of_nat t)%Z st) l (S0, c0))
    = S0 + INR (length l) * v.
Proof.
  induction l as [|t l IH]; intros Hx S0 c0.
  - cbn [fold_left length fst INR]. lra.
  - cbn [fold_left]. specialize (IH ltac:(intros t' Ht'; apply Hx; right; exact Ht')
                                   (S0 + x (lo + Z.of_nat t)%Z) (c0 + 1)%nat).
    change (length (t :: l)) with (S (length l)). rewrite S_INR.
    cbv beta iota in IH |- *. cbn [add RNum] in IH |- *.
    rewrite IH, (Hx t) by (left; reflexivity). lra.
Qed.

(** X6: The windows of [noiseSeries] are clamped to the array, so that a
    constant array comes out as it is, at its two ends as in the middle. *)
Theorem noiseSmooth_constant (n : nat) (v : R) (s : Z) :
  noiseSmooth n (replicate n v) s = replicate n v.
Proof.
  apply (nth_ext _ _ 0 0).
  - rewrite length_noiseSmooth, length_replicate. reflexivity.
  - intros i Hi. rewrite length_noiseSmooth in Hi.
    rewrite noiseSmooth_nth by exact Hi. cbv zeta.
    set (w := Z.max 1 (Int32.or s 0)).
    set (x := fun k : Z =>
      nth (Z.to_nat (Z.min (Z.of_nat n - 1) (Z.max 0 (Z.of_nat i + k))))
          (replicate n v) (lit 0)).
    unfold for_loopZ.
    pose proof (window_fold_count x (- w) (seq 0 (Z.to_nat (w - - w + 1))) (lit 0) 0%nat) as Hc.
    pose proof (window_fold_constant x v (- w) (seq 0 (Z.to_nat (w - - w + 1)))) as Hb.
    assert (Hx : forall k : Z, x k = v).
    { intros k. unfold x. rewrite nth_lookup, lookup_replicate_2; [reflexivity|lia]. }
    specialize (Hb ltac:(intros t _; apply Hx) (lit 0) 0%nat).
    rewrite length_seq in Hc, Hb. pose proof (window_size s) as Hw. cbv zeta in Hw.
    fold w in Hw. set (m := Z.to_nat (w - - w + 1)) in *.
    unfold x in Hc, Hb. cbv beta in Hc, Hb.
    destruct (fold_left _ _ _) as [S' c]. cbn [fst snd] in *. subst c S'.
    rewrite ofnat_R, lit_zero_R. cbn [div RNum].
    assert (Hm : 3 <= INR m) by (pose proof (le_INR 3 m Hw) as Hm; simpl in Hm; lra).
    rewrite nth_lookup, lookup_replicate_2 by exact Hi.
    change (0 + m)%nat with m. clearbody m.
    change (default 0 (Some v)) with v.
    apply Rmult_eq_reg_r with (INR m); [|lra]. unfold Rdiv.
    rewrite Rmult_assoc, Rinv_l by lra. lra.
Qed.

(** ** Elevation and distance of the preview *)

Lemma elev_ft_of_range (base bump : list R) (i : nat) :
  (forall j : nat, -1 <= nth j base 0 <= 1) ->
  (forall j : nat, -1 <= nth j bump 0 <= 1) ->
  -85 <= nth i (elev_ft_of base bump) 0 <= 85.
Proof.
  intros Hb Hu. unfold elev_ft_of.
  rewrite nth_lookup, list_lookup_imap.
  destruct (base !! i) as [b|] eqn:Hi;
    cbn [fmap option_fmap option_map default from_option]; unfold Datatypes.id.
  - pose proof (Hb i) as Hbi. rewrite nth_lookup, Hi in Hbi.
    cbn [default from_option] in Hbi. unfold Datatypes.id in Hbi.
    pose proof (Hu i) as Hui. rewrite lit_zero_R. real_ops. lra.
  - lra.
Qed.

(** X7: The elevation of the preview, 60 feet of the slow noise and 25 of the
    fast one, stays within 85 feet of zero for every seed. *)
Theorem preview_elevation_range (pts : nat) (rider : Rider R) (totalMiles : R)
    (seed : Z) (h : Heap) (i : nat) :
  -85 <= nth i (fst (eval (routePreview pts rider totalMiles seed) h)) 0 <= 85.
Proof.
  unfold eval, routePreview. rewrite run_mulberry32. cbv zeta.
  rewrite !bind_run, fst_ret. cbn [fst].
  apply elev_ft_of_range; intros j; apply noiseSeries_between.
Qed.

(** X8: The preview starts at mile 0 and ends at [totalMiles], in 1599 equal
    steps. *)
Theorem preview_miles_span (totalMiles : R) (seed : Z) (h : Heap) :
  let p := eval (makeRoutePreview totalMiles seed) h in
  nth 0 (miles p) 0 = 0 /\ nth 1599 (miles p) 0 = totalMiles /\
  forall i : nat, (i < 1599)%nat ->
    nth (S i) (miles p) 0 - nth i (miles p) 0 = totalMiles / 1599.
Proof.
  cbv zeta. rewrite makeRoutePreview_eval.
  destruct (routePreview_shape 1600 (preview_rider (F := R)) totalMiles seed h)
    as (base & bump & h' & _ & _ & Hr).
  cbv zeta in Hr. rewrite Hr. cbn [snd miles]. clear Hr.
  assert (Hn : forall i : nat, (i < 1600)%nat ->
            nth i (miles_of 1600 totalMiles) 0 = INR i * totalMiles / 1599).
  { intros i Hi.
    replace (nth i (miles_of 1600 totalMiles) 0)
      with (nth i (miles_of 1600 totalMiles) (lit 0))
      by (rewrite lit_zero_R; reflexivity).
    rewrite nth_miles_of by exact Hi. rewrite ofnat_R.
    cbn [mul div RNum]. f_equal.
    change (Z.of_nat 1600 - 1)%Z with 1599%Z. real_ops.
    rewrite Rinv_1, Rmult_1_r. reflexivity. }
  split; [|split].
  - rewrite Hn by lia. cbn [INR]. lra.
  - rewrite Hn by lia. rewrite INR_IZR_INZ.
    change (Z.of_nat 1599) with 1599%Z. field.
  - intros i Hi. rewrite !Hn by lia. rewrite S_INR. field.
Qed.

Lemma preview_miles_span_witness :
  let p := eval (makeRoutePreview 85 1337) [] in
  nth 0 (miles p) 0 = 0 /\ nth 1599 (miles p) 0 = 85 /\
  nth 1 (miles p) 0 - nth 0 (miles p) 0 = 85 / 1599.
Proof.
  destruct (preview_miles_span 85 1337 []) as (H0 & H1 & Hs).
  split; [exact H0|]. split; [exact H1|]. apply (Hs 0%nat). lia.
Defined.

(** ** Smoothing keeps the grades within their bounds *)

Lemma for_loop_invariant {St} (Inv : St -> Prop) (lo hi : nat)
    (body : nat -> St -> St) (st : St) :
  Inv st ->
  (forall (i : nat) (st' : St), (lo <= i < hi)%nat -> Inv st' -> Inv (body i st')) ->
  Inv (for_loop lo hi body st).
Proof.
  intros H0. induction hi as [|hi IH]; intros Hstep.
  - rewrite for_loop_done by lia. exact H0.
  - destruct (le_lt_dec lo hi) as [Hle|Hlt].
    + rewrite for_loop_last by exact Hle. apply Hstep; [lia|].
      apply IH. intros i st' Hi. apply Hstep. lia.
    + rewrite for_loop_done by lia. exact H0.
Qed.

Lemma lookup_nth_Some {A} (l : list A) (i : nat) (d : A) :
  (i < length l)%nat -> l !! i = Some (nth i l d).
Proof.
  intros Hi. destruct (lookup_lt_is_Some_2 l i Hi) as [x Hx].
  rewrite nth_lookup, Hx. reflexivity.
Qed.

Lemma grade_smooth_between (pts : nat) (gr : list R) (lo hi : R) :
  length gr = pts -> Forall (fun x => lo <= x <= hi) gr ->
  Forall (fun x => lo <= x <= hi) (grade_smooth pts gr).
Proof.
  intros Hlen Hall. unfold grade_smooth.
  apply (for_loop_invariant
           (fun a => length a = pts /\ Forall (fun x => lo <= x <= hi) a));
    [split; assumption|].
  intros i a Hi [Hl Ha]. split; [rewrite length_insert; exact Hl|].
  assert (Hn : forall j : nat, (j < pts)%nat -> lo <= nth j a (lit 0) <= hi).
  { intros j Hj. rewrite <- Hl in Hj.
    pose proof (lookup_nth_Some a j (lit 0) Hj) as Hx.
    exact (proj1 (Forall_lookup _ a) Ha j _ Hx). }
  apply Forall_insert; [exact Ha|].
  pose proof (Hn (i - 2)%nat ltac:(lia)). pose proof (Hn (i - 1)%nat ltac:(lia)).
  pose proof (Hn i ltac:(lia)). pose proof (Hn (i + 1)%nat ltac:(lia)).
  pose proof (Hn (i + 2)%nat ltac:(lia)).
  real_ops. lra.
Qed.

(** X9: The smoothing loop overwrites the array it reads, and still every
    grade it leaves lies between the least and the greatest raw grade. *)
Theorem grade_smooth_range (pts : nat) (gr : list R) (lo hi : R) :
  length gr = pts ->
  (forall i : nat, (i < pts)%nat -> lo <= nth i gr 0 <= hi) ->
  forall i : nat, (i < pts)%nat -> lo <= nth i (grade_smooth pts gr) 0 <= hi.
Proof.
  intros Hlen Hin i Hi.
  assert (Hall : Forall (fun x => lo <= x <= hi) gr).
  { apply Forall_lookup. intros j x Hx.
    pose proof (lookup_lt_Some _ _ _ Hx) as Hj. rewrite Hlen in Hj.
    specialize (Hin j Hj). rewrite nth_lookup, Hx in Hin. exact Hin. }
  pose proof (grade_smooth_between pts gr lo hi Hlen Hall) as Hout.
  assert (Hi' : (i < length (grade_smooth pts gr))%nat)
    by (rewrite length_grade_smooth, Hlen; exact Hi).
  exact (proj1 (Forall_lookup _ _) Hout i _ (lookup_nth_Some _ i 0 Hi')).
Qed.

Lemma grade_smooth_range_witness :
  1 <= nth 2 (grade_smooth 5 [1; 3; 2; 5; 4]) 0 <= 5.
Proof.
  apply (grade_smooth_range 5 [1; 3; 2; 5; 4] 1 5); [reflexivity| |lia].
  intros i Hi.
  destruct i as [|[|[|[|[|i]]]]]; cbn [nth]; [lra|lra|lra|lra|lra|lia].
Defined.

(** ** A route without length *)

Lemma ofZ_R (z : Z) : ofZ (F := R) z = IZR z.
Proof. unfold ofZ. cbn [lit RNum]. unfold Q2R, inject_Z. cbn [Qnum Qden]. rewrite Rinv_1. ring. Qed.

Lemma miles_of_step (pts : nat) (totalMiles : R) (i : nat) :
  (1 <= i)%nat -> (i < pts)%nat ->
  nth i (miles_of pts totalMiles) (lit 0) - nth (i - 1) (miles_of pts totalMiles) (lit 0)
  = totalMiles / INR (pts - 1).
Proof.
  intros H1 Hi. rewrite !nth_miles_of by lia. rewrite !ofnat_R, ofZ_R.
  cbn [mul div RNum].
  replace (IZR (Z.of_nat pts - 1)) with (INR (pts - 1))
    by (rewrite INR_IZR_INZ; f_equal; lia).
  replace i with (S (i - 1)) at 1 by lia. rewrite S_INR.
  assert (HD : 1 <= INR (pts - 1)).
  { pose proof (le_INR 1 (pts - 1) ltac:(lia)) as Hle. simpl in Hle. exact Hle. }
  field. lra.
Qed.

Lemma grade_raw_degenerate (pts : nat) (totalMiles : R) (elev_ft : list R) :
  totalMiles <= 0 ->
  Forall (fun x => 0 <= x <= 0) (grade_raw pts (miles_of pts totalMiles) elev_ft).
Proof.
  intros HT. apply Forall_lookup. intros j x Hx.
  pose proof (lookup_lt_Some _ _ _ Hx) as Hj. rewrite length_grade_raw in Hj.
  assert (Hz : nth j (grade_raw pts (miles_of pts totalMiles) elev_ft) (lit 0) = 0).
  { destruct j as [|j].
    - rewrite grade_raw_first. apply lit_zero_R.
    - rewrite grade_raw_nth by lia. cbv zeta.
      rewrite miles_of_step by lia.
      assert (HD : 1 <= INR (pts - 1)).
      { pose proof (le_INR 1 (pts - 1) ltac:(lia)) as Hle. simpl in Hle. exact Hle. }
      assert (Hdx : totalMiles / INR (pts - 1) <= lit 0).
      { rewrite lit_zero_R. unfold Rdiv.
        pose proof (Rinv_0_lt_compat (INR (pts - 1)) ltac:(lra)). nra. }
      rewrite (proj2 (ltb_R_false _ _) Hdx). apply lit_zero_R. }
  rewrite nth_lookup, Hx in Hz. cbn [default from_option] in Hz.
  unfold Datatypes.id in Hz. lra.
Qed.

Lemma routePreview_degenerate (pts : nat) (rider : Rider R) (totalMiles : R)
    (seed : Z) (h : Heap) (i : nat) :
  totalMiles <= 0 ->
  nth i (grade (snd (eval (routePreview pts rider totalMiles seed) h))) 0 = 0.
Proof.
  intros HT.
  destruct (routePreview_shape pts rider totalMiles seed h)
    as (base & bump & h' & _ & _ & Hr).
  cbv zeta in Hr. rewrite Hr. cbn [snd grade]. clear Hr.
  set (raw := grade_raw pts (miles_of pts totalMiles) (elev_ft_of base bump)).
  pose proof (grade_smooth_between pts raw 0 0 (length_grade_raw _ _ _)
                (grade_raw_degenerate pts totalMiles _ HT)) as Hall.
  rewrite nth_lookup. destruct (grade_smooth pts raw !! i) as [x|] eqn:Hx.
  - pose proof (proj1 (Forall_lookup _ _) Hall i x Hx). cbn. lra.
  - reflexivity.
Qed.

(** X10: When [totalMiles] is zero or negative no step has a positive length,
    the guard [dx > 0] fails at every sample, and the preview has grade 0
    throughout: no division by a zero distance takes place. *)
Theorem preview_degenerate_route (totalMiles : R) (seed : Z) (h : Heap) (i : nat) :
  totalMiles <= 0 ->
  nth i (grade (eval (makeRoutePreview totalMiles seed) h)) 0 = 0.
Proof.
  intros HT. rewrite makeRoutePreview_eval.
  exact (routePreview_degenerate 1600 preview_rider totalMiles seed h i HT).
Qed.

Lemma preview_degenerate_route_witness :
  nth 7 (grade (eval (makeRoutePreview 0 1337) [])) 0 = 0.
Proof. apply (preview_degenerate_route 0 1337 [] 7). lra. Defined.

(** ** The loop of the callback *)

(** X11: The divisor of the step is positive whatever [df] is, so a turn of the
    loop never moves the speed away from the root: it does not raise a
    speed that needs more power than the rider has, and does not lower one
    that needs less. *)
Theorem newton_step_direction (rider : Rider R) (gp v : R) :
  1 <= v ->
  (0 <= Ride.f rider gp v -> Ride.newton_step rider gp v <= v) /\
  (Ride.f rider gp v <= 0 -> v <= Ride.newton_step rider gp v).
Proof.
  intros Hv. pose proof (divisor_positive rider gp v) as Hd.
  unfold Ride.newton_step.
  set (d := fmax (lit 1e-6) (Ride.df rider gp v)) in *.
  set (fv := Ride.f rider gp v).
  pose proof (Rinv_0_lt_compat d Hd) as Hi.
  cbn [fmax sub mul div RNum]. unfold Rdiv.
  assert (H1 : lit (F := R) 1 = 1) by (real_ops; lra).
  assert (H6 : lit (F := R) 0.6 = 0.6) by (real_ops; lra).
  rewrite H1, H6. split; intros Hf.
  - apply Rmax_lub; [exact Hv|]. nra.
  - apply Rle_trans with (v - 0.6 * (fv * / d)); [nra|apply Rmax_r].
Qed.

Lemma newton_step_direction_witness :
  2 <= Ride.newton_step (F := R) preview_rider 0 2.
Proof.
  apply (newton_step_direction preview_rider 0 2); [lra|].
  unfold Ride.f. rewrite grav_flat, roll_flat.
  pose proof preview_power_tight as HP.
  unfold Ride.aero, Ride.rho, Ride.g, preview_rider in *. real_ops. lra.
Defined.

Lemma whoosh_range (gp : R) (i : nat) : 0 <= Ride.whoosh gp i <= 7.
Proof.
  unfold Ride.whoosh.
  destruct (ltb gp (lit (-4)) && (i mod 95 =? 0)%nat); real_ops; lra.
Qed.

(** X12: What the callback adds to the solved speed, the dip, the whoosh and
    the jitter together, lies between -10.3 and 7.3 mph. *)
Theorem speed_at_decoration (rider : Rider R) (gp : R) (i : nat) (u : R) :
  0 <= u < 1 ->
  Ride.solve rider gp * 2.23694 - 10.3 <= Ride.speed_at rider gp i u /\
  Ride.speed_at rider gp i u <= Rmax 5 (Ride.solve rider gp * 2.23694 + 7.3).
Proof.
  intros Hu. unfold Ride.speed_at.
  pose proof (dip_range i) as Hd. pose proof (whoosh_range gp i) as Hw.
  pose proof (jitter_range u Hu) as Hj.
  set (s := Ride.solve rider gp) in *.
  cbn [fmax add mul RNum].
  assert (H5 : lit (F := R) 5 = 5) by (real_ops; lra).
  assert (Hc : lit (F := R) 2.23694 = 2.23694) by (real_ops; lra).
  rewrite H5, Hc. split.
  - eapply Rle_trans; [|apply Rmax_r]. lra.
  - apply Rmax_lub; [apply Rmax_l|].
    eapply Rle_trans; [|apply Rmax_r]. lra.
Qed.

Lemma speed_at_decoration_witness :
  Ride.solve (F := R) preview_rider 3 * 2.23694 - 10.3
    <= Ride.speed_at preview_rider 3 180 0.5.
Proof. apply (speed_at_decoration preview_rider 3 180 0.5). lra. Defined.

Lemma dip_whoosh_indices (k : nat) :
  (1 <= k)%nat -> (k < 3420)%nat -> (k mod 95 =? 0)%nat = true ->
  (k mod 180 <> 0)%nat /\ (k mod 310 <> 0)%nat.
Proof.
  intros H1 Hk H95.
  assert (Hall : forallb (fun k => negb (k mod 95 =? 0)%nat
                   || (negb (k mod 180 =? 0)%nat && negb (k mod 310 =? 0)%nat))
                   (seq 1 3419) = true) by (vm_compute; reflexivity).
  rewrite forallb_forall in Hall.
  specialize (Hall k ltac:(apply in_seq; lia)).
  rewrite H95 in Hall. cbn [negb orb] in Hall.
  apply andb_prop in Hall. destruct Hall as [Ha Hb].
  apply negb_true_iff in Ha, Hb.
  split; apply Nat.eqb_neq; assumption.
Qed.

Lemma routePreview_dip_or_whoosh (pts : nat) (rider : Rider R) (totalMiles : R)
    (seed : Z) (h : Heap) (k : nat) :
  (k < 3420)%nat ->
  let p := snd (eval (routePreview pts rider totalMiles seed) h) in
  Ride.dip (F := R) k = 0 \/ Ride.whoosh (nth k (grade p) (lit 0)) k = 0.
Proof.
  intros Hk. cbv zeta. destruct k as [|k].
  - right. rewrite routePreview_grade_first.
    apply whoosh_climb. rewrite lit_zero_R. lra.
  - destruct ((S k mod 95 =? 0)%nat) eqn:H95.
    + left. destruct (dip_whoosh_indices (S k) ltac:(lia) Hk H95) as [Ha Hb].
      apply dip_none; assumption.
    + right. unfold Ride.whoosh. rewrite H95, andb_false_r. apply lit_zero_R.
Qed.

(** X13: No sample of the preview gets both a dip and a whoosh: the indices
    that are multiples of 95 and of 180 or 310 start again at 3420, beyond
    the 1600 samples, and at index 0 the grade is 0. *)
Theorem preview_dip_or_whoosh (totalMiles : R) (seed : Z) (h : Heap) (k : nat) :
  (k < 1600)%nat ->
  let p := eval (makeRoutePreview totalMiles seed) h in
  Ride.dip (F := R) k = 0 \/ Ride.whoosh (nth k (grade p) 0) k = 0.
Proof.
  intros Hk. cbv zeta.
  assert (Hk' : (k < 3420)%nat) by lia.
  pose proof (routePreview_dip_or_whoosh 1600 preview_rider totalMiles seed h k Hk')
    as Hr.
  cbv zeta in Hr. rewrite lit_zero_R in Hr.
  rewrite makeRoutePreview_eval. exact Hr.
Qed.

Lemma preview_dip_or_whoosh_witness :
  Ride.dip (F := R) 95 = 0 \/
  Ride.whoosh (nth 95 (grade (eval (makeRoutePreview 85 1337) [])) 0) 95 = 0.
Proof. apply (preview_dip_or_whoosh 85 1337 [] 95). lia. Defined.

(** ** The charts of the landing page *)

Lemma miles_of_range (pts : nat) (totalMiles : R) (i : nat) :
  0 <= totalMiles -> (i < pts)%nat ->
  0 <= nth i (miles_of pts totalMiles) (lit 0) <= totalMiles.
Proof.
  intros HT Hi. rewrite nth_miles_of by exact Hi. rewrite ofnat_R, ofZ_R.
  cbn [mul div RNum].
  destruct i as [|i].
  - cbn [INR]. unfold Rdiv. rewrite !Rmult_0_l. lra.
  - replace (IZR (Z.of_nat pts - 1)) with (INR (pts - 1))
      by (rewrite INR_IZR_INZ; f_equal; lia).
    pose proof (le_INR (S i) (pts - 1) ltac:(lia)) as Hle.
    pose proof (le_INR 1 (S i) ltac:(lia)) as H1. simpl (INR 1) in H1.
    set (a := INR (S i)) in *. set (D := INR (pts - 1)) in *.
    pose proof (Rinv_0_lt_compat D ltac:(lra)) as HD.
    assert (Hq : 0 <= a * / D <= 1).
    { split; [nra|]. apply Rmult_le_reg_r with D; [lra|].
      rewrite Rmult_assoc, Rinv_l by lra. lra. }
    unfold Rdiv. replace (a * totalMiles * / D) with (totalMiles * (a * / D)) by ring.
    nra.
Qed.

Lemma chart_points_lookup {F} (xs ys : list F) (i : nat) (d : F) :
  (i < length xs)%nat -> (i < length ys)%nat ->
  chart_points xs ys !! i = Some (nth i xs d, Some (nth i ys d)).
Proof.
  intros Hx Hy. unfold chart_points. rewrite list_lookup_imap.
  rewrite (lookup_nth_Some xs i d Hx), (lookup_nth_Some ys i d Hy). reflexivity.
Qed.

Lemma routePreview_chart (pts : nat) (rider : Rider R) (totalMiles : R) (seed : Z)
    (h : Heap) :
  0 <= totalMiles ->
  let p := snd (eval (routePreview pts rider totalMiles seed) h) in
  length (chart_points (miles p) (speed p)) = pts /\
  length (chart_points (miles p) (grade p)) = pts /\
  forall i : nat, (i < pts)%nat ->
    exists x y gp : R,
      chart_points (miles p) (speed p) !! i = Some (x, Some y) /\
      chart_points (miles p) (grade p) !! i = Some (x, Some gp) /\
      0 <= x <= totalMiles /\ 5 <= y.
Proof.
  intros HT. cbv zeta.
  destruct (routePreview_lengths pts rider totalMiles seed h) as (_ & Hm & Hs & Hg).
  pose proof (routePreview_speed_floor pts rider totalMiles seed h) as Hfloor.
  destruct (routePreview_shape pts rider totalMiles seed h)
    as (base & bump & h' & _ & _ & Hr).
  cbv zeta in Hr.
  assert (Hmiles : miles (snd (eval (routePreview pts rider totalMiles seed) h))
                   = miles_of pts totalMiles) by (rewrite Hr; reflexivity).
  clear Hr.
  set (p := snd (eval (routePreview pts rider totalMiles seed) h)) in *.
  unfold chart_points at 1 2. rewrite !length_imap.
  split; [exact Hm|]. split; [exact Hm|].
  intros i Hi.
  exists (nth i (miles p) 0), (nth i (speed p) 0), (nth i (grade p) 0).
  split; [apply chart_points_lookup; lia|].
  split; [apply chart_points_lookup; lia|].
  split; [|apply Hfloor; exact Hi].
  rewrite Hmiles.
  replace (nth i (miles_of pts totalMiles) 0)
    with (nth i (miles_of pts totalMiles) (lit 0))
    by (rewrite lit_zero_R; reflexivity).
  apply miles_of_range; assumption.
Qed.

(** X14: The two charts of the landing page pair [miles] with [speed] and with
    [grade] by index: each has 1600 points, no point lacks its [y], the
    two charts share their [x], which runs within the length of the route,
    and no plotted speed is below 5 mph. *)
Theorem landing_chart_points (totalMiles : R) (seed : Z) (h : Heap) :
  0 <= totalMiles ->
  let p := eval (makeRoutePreview totalMiles seed) h in
  length (chart_points (miles p) (speed p)) = 1600%nat /\
  length (chart_points (miles p) (grade p)) = 1600%nat /\
  forall i : nat, (i < 1600)%nat ->
    exists x y gp : R,
      chart_points (miles p) (speed p) !! i = Some (x, Some y) /\
      chart_points (miles p) (grade p) !! i = Some (x, Some gp) /\
      0 <= x <= totalMiles /\ 5 <= y.
Proof.
  intros HT. cbv zeta. rewrite makeRoutePreview_eval.
  pose proof (routePreview_chart 1600 preview_rider totalMiles seed h HT) as Hc.
  cbv zeta in Hc. exact Hc.
Qed.

Lemma landing_chart_points_witness :
  length (chart_points (miles (eval (makeRoutePreview 85 1337) []))
                       (speed (eval (makeRoutePreview 85 1337) []))) = 1600%nat.
Proof.
  destruct (landing_chart_points 85 1337 []) as [Hlen _]; [lra|]. exact Hlen.
Defined.

(** * The place filters *)

Lemma toggle_on (s : gset string) (k : string) :
  ~ elem_of k s -> PlaceFilters.toggle s k = union s {[ k ]}.
Proof. intros Hk. unfold PlaceFilters.toggle. cbv zeta. rewrite decide_False by exact Hk. reflexivity. Qed.

Lemma toggle_off (s : gset string) (k : string) :
  elem_of k s -> PlaceFilters.toggle s k = difference s {[ k ]}.
Proof. intros Hk. unfold PlaceFilters.toggle. cbv zeta. rewrite decide_True by exact Hk. reflexivity. Qed.

Lemma elem_of_toggle (s : gset string) (k k' : string) :
  elem_of k' (PlaceFilters.toggle s k) <->
  (k' <> k /\ elem_of k' s) \/ (k' = k /\ ~ elem_of k s).
Proof.
  destruct (decide (elem_of k s)) as [Hk|Hk].
  - rewrite toggle_off by exact Hk.
    rewrite elem_of_difference, elem_of_singleton.
    destruct (decide (k' = k)) as [->|Hne]; tauto.
  - rewrite toggle_on by exact Hk.
    rewrite elem_of_union, elem_of_singleton.
    destruct (decide (k' = k)) as [->|Hne]; tauto.
Qed.

(** X15: Toggling a key twice gives back the set of selected categories. *)
Theorem toggle_twice (selected : gset string) (key : string) :
  PlaceFilters.toggle (PlaceFilters.toggle selected key) key = selected.
Proof.
  apply set_eq. intros k'. rewrite !elem_of_toggle.
  destruct (decide (k' = key)) as [->|Hne];
    destruct (decide (elem_of key selected)); tauto.
Qed.

(** X16: A toggle flips the box of its key, leaves every other box as it was,
    and changes the number of selected categories by one. *)
Theorem toggle_checked (selected : gset string) (key k : string) :
  PlaceFilters.checked (PlaceFilters.toggle selected key) k =
    (if decide (k = key) then negb (PlaceFilters.checked selected k)
     else PlaceFilters.checked selected k) /\
  size (PlaceFilters.toggle selected key) =
    (if PlaceFilters.checked selected key then (size selected - 1)%nat
     else S (size selected)).
Proof.
  unfold PlaceFilters.checked. split.
  - destruct (decide (k = key)) as [->|Hne].
    + destruct (decide (elem_of key selected)) as [Hk|Hk].
      * rewrite (bool_decide_eq_true_2 _ Hk). apply bool_decide_eq_false_2.
        rewrite elem_of_toggle. tauto.
      * rewrite (bool_decide_eq_false_2 _ Hk). apply bool_decide_eq_true_2.
        rewrite elem_of_toggle. tauto.
    + apply bool_decide_ext. rewrite elem_of_toggle. tauto.
  - destruct (decide (elem_of key selected)) as [Hk|Hk].
    + rewrite (bool_decide_eq_true_2 _ Hk), toggle_off by exact Hk.
      rewrite size_difference by (apply singleton_subseteq_l; exact Hk).
      rewrite size_singleton. reflexivity.
    + rewrite (bool_decide_eq_false_2 _ Hk), toggle_on by exact Hk.
      rewrite size_union by (apply disjoint_singleton_r; exact Hk).
      rewrite size_singleton. lia.
Qed.

Lemma size_initial_filters : size Result.initial_filters = 6%nat.
Proof. reflexivity. Qed.

Lemma elem_of_initial_filters (k : string) :
  elem_of k Result.initial_filters <-> In k PlaceFilters.ALL.
Proof.
  unfold Result.initial_filters. rewrite elem_of_list_to_set.
  rewrite <- list_elem_of_In. reflexivity.
Qed.

(** X17: A toggle of one of the six boxes keeps the selection within the six
    categories. *)
Theorem toggle_known (selected : gset string) (key : string) :
  subseteq selected Result.initial_filters -> In key PlaceFilters.ALL ->
  subseteq (PlaceFilters.toggle selected key) Result.initial_filters.
Proof.
  intros Hs Hk k' Hk'. apply elem_of_toggle in Hk'.
  destruct Hk' as [[_ Hin]|[-> _]].
  - apply Hs. exact Hin.
  - apply elem_of_initial_filters. exact Hk.
Qed.

Lemma toggle_known_witness :
  subseteq (PlaceFilters.toggle Result.initial_filters "cafe") Result.initial_filters.
Proof.
  apply (toggle_known Result.initial_filters "cafe").
  - intros k Hk. exact Hk.
  - right. left. reflexivity.
Defined.

Lemma checked_elem_of (s : gset string) (k : string) :
  PlaceFilters.checked s k = true <-> elem_of k s.
Proof. unfold PlaceFilters.checked. apply bool_decide_eq_true. Qed.

Lemma size_selected (s : gset string) :
  subseteq s Result.initial_filters ->
  size s = length (List.filter (PlaceFilters.checked s) PlaceFilters.ALL).
Proof.
  intros Hs.
  assert (Hnd : NoDup (List.filter (PlaceFilters.checked s) PlaceFilters.ALL)).
  { apply NoDup_ListNoDup, List.NoDup_filter, NoDup_ListNoDup.
    apply (bool_decide_unpack _). vm_compute. exact I. }
  rewrite <- (size_list_to_set (C := gset string)) by exact Hnd.
  f_equal. apply set_eq. intros k.
  rewrite elem_of_list_to_set, list_elem_of_In, List.filter_In, checked_elem_of.
  split; [|tauto]. intros Hk. split; [|exact Hk].
  apply elem_of_initial_filters, Hs, Hk.
Qed.

Lemma all_boxes (c : string -> bool) (b : bool) :
  (forall k : string, In k PlaceFilters.ALL -> c k = b) <->
  c "bike_shop" = b /\ c "cafe" = b /\ c "restaurant" = b /\
  c "park" = b /\ c "water" = b /\ c "other" = b.
Proof.
  split.
  - intros Hc. repeat split; apply Hc; cbn; tauto.
  - intros (H1 & H2 & H3 & H4 & H5 & H6) k
           [<-|[<-|[<-|[<-|[<-|[<-|[]]]]]]]; assumption.
Qed.

(** X18: As long as the selection holds none but the six categories, the text
    beside the boxes is right: "All categories" when every box is
    checked and only then, "No categories selected" when none is, and
    otherwise the number of boxes that are checked. *)
Theorem label_sound (selected : gset string) :
  subseteq selected Result.initial_filters ->
  (PlaceFilters.label selected = PlaceFilters.AllCategories <->
     forall k : string, In k PlaceFilters.ALL -> PlaceFilters.checked selected k = true) /\
  (PlaceFilters.label selected = PlaceFilters.NoCategoriesSelected <->
     forall k : string, In k PlaceFilters.ALL -> PlaceFilters.checked selected k = false) /\
  (forall n : nat, PlaceFilters.label selected = PlaceFilters.CountSelected n ->
     n = length (List.filter (PlaceFilters.checked selected) PlaceFilters.ALL) /\
     (0 < n < 6)%nat).
Proof.
  intros Hs. pose proof (size_selected selected Hs) as Hn.
  unfold PlaceFilters.label, PlaceFilters.noneOn, PlaceFilters.allOn.
  rewrite Hn. clear Hn Hs.
  rewrite !all_boxes.
  generalize (PlaceFilters.checked selected). intros c.
  unfold PlaceFilters.ALL. cbn [List.filter length].
  destruct (c "bike_shop"), (c "cafe"), (c "restaurant"), (c "park"),
    (c "water"), (c "other"); cbn [length Nat.eqb];
    (split;
     [ split; [ intros Hl; first [discriminate Hl | repeat split; reflexivity]
              | intros (? & ? & ? & ? & ? & ?); congruence ]
     | split;
       [ split; [ intros Hl; first [discriminate Hl | repeat split; reflexivity]
                | intros (? & ? & ? & ? & ? & ?); congruence ]
       | intros n Hl;
         first [discriminate Hl | injection Hl as <-; split; [reflexivity|lia]] ] ]).
Qed.

Lemma label_sound_witness :
  PlaceFilters.label Result.initial_filters = PlaceFilters.AllCategories <->
  forall k : string, In k PlaceFilters.ALL ->
    PlaceFilters.checked Result.initial_filters k = true.
Proof.
  apply (label_sound Result.initial_filters). intros k Hk. exact Hk.
Defined.

(** X19: The text counts the elements of the set, not the boxes: [PlaceFilters]
    takes any set, and one that holds a key outside the six categories in
    the place of "other" shows "All categories" over an unchecked box. *)
Theorem label_counts_foreign_keys (k : string) :
  ~ In k PlaceFilters.ALL ->
  let selected := union (difference Result.initial_filters {[ "other"%string ]}) {[ k ]} in
  PlaceFilters.label selected = PlaceFilters.AllCategories /\
  PlaceFilters.checked selected "other" = false.
Proof.
  intros Hk. cbv zeta.
  assert (Hne : k <> "other"%string).
  { intros ->. apply Hk. cbn. tauto. }
  assert (Hnk : ~ elem_of k (difference Result.initial_filters {[ "other"%string ]})).
  { rewrite elem_of_difference, elem_of_initial_filters. tauto. }
  split.
  - unfold PlaceFilters.label, PlaceFilters.noneOn, PlaceFilters.allOn.
    rewrite size_union by (apply disjoint_singleton_r; exact Hnk).
    rewrite size_difference
      by (apply singleton_subseteq_l, elem_of_initial_filters; cbn; tauto).
    rewrite !size_singleton, size_initial_filters. reflexivity.
  - unfold PlaceFilters.checked. apply bool_decide_eq_false_2.
    rewrite elem_of_union, elem_of_difference, !elem_of_singleton.
    intros [[_ Hn]|Ho]; [apply Hn; reflexivity|apply Hne; symmetry; exact Ho].
Qed.

Lemma label_counts_foreign_keys_witness :
  PlaceFilters.label
    (union (difference Result.initial_filters {[ "other"%string ]}) {[ "atm"%string ]})
  = PlaceFilters.AllCategories.
Proof.
  apply (label_counts_foreign_keys "atm").
  intros [H|[H|[H|[H|[H|[H|[]]]]]]]; discriminate H.
Defined.

(** ** The places of the map *)

Section PlacesShown.
Context {Place : Type} (category : Place -> option string).

Lemma In_filteredPlaces (ps : list Place) (filters : gset string) (p : Place) :
  In p (Result.filteredPlaces category (Some (Some ps)) filters) <->
  In p ps /\ elem_of (or_other (category p)) filters.
Proof.
  unfold Result.filteredPlaces.
  rewrite <- !list_elem_of_In, list_elem_of_filter. tauto.
Qed.

(** X20: The page never changes its [filters], so the places on the map are
    those whose category is missing, empty or one of the six; a place of
    any other category is not shown. *)
Theorem filteredPlaces_initial (ps : list Place) (p : Place) :
  In p (Result.filteredPlaces category (Some (Some ps)) Result.initial_filters) <->
  In p ps /\
  (category p = None \/ category p = Some EmptyString \/
   exists c : string, category p = Some c /\ In c PlaceFilters.ALL).
Proof.
  rewrite In_filteredPlaces, elem_of_initial_filters.
  unfold or_other.
  destruct (category p) as [c|].
  - destruct (decide (c = EmptyString)) as [->|Hne].
    + split; [tauto|]. intros [Hp _]. split; [exact Hp|]. cbn. tauto.
    + split.
      * intros [Hp Hc]. split; [exact Hp|]. right. right. exists c. tauto.
      * intros [Hp [Hn|[He|(c' & Hc' & Hin)]]]; [discriminate Hn|congruence|].
        injection Hc' as ->. tauto.
  - split; [tauto|]. intros [Hp _]. split; [exact Hp|]. cbn. tauto.
Qed.

(** X21: Every marker on the map gets a colour of the table of [iconFor], as
    long as the filters hold none but the six categories. *)
Theorem markers_have_colors (places : option (option (list Place)))
    (filters : gset string) (p : Place) :
  subseteq filters Result.initial_filters ->
  In p (Result.filteredPlaces category places filters) ->
  exists color : string, MapView.iconColor (category p) = Some color.
Proof.
  intros Hs Hp.
  destruct places as [[ps|]|]; [|destruct Hp|destruct Hp].
  apply In_filteredPlaces in Hp. destruct Hp as [_ Hc].
  apply Hs, elem_of_initial_filters in Hc.
  unfold MapView.iconColor.
  destruct Hc as [<-|[<-|[<-|[<-|[<-|[<-|[]]]]]]]; eexists; reflexivity.
Qed.

End PlacesShown.

Lemma markers_have_colors_witness :
  exists color : string, MapView.iconColor (Some "cafe"%string) = Some color.
Proof.
  apply (markers_have_colors (fun p : option string => p)
           (Some (Some [Some "cafe"%string; None])) Result.initial_filters
           (Some "cafe"%string)).
  - intros k Hk. exact Hk.
  - apply In_filteredPlaces. split; [left; reflexivity|].
    apply elem_of_initial_filters. cbn. tauto.
Defined.

(** ** The name of the downloaded video *)

Lemma replace_from_no_space (b : bool) (s : list N) :
  Forall (fun c => Video.is_space c = false) (Video.replace_from b s).
Proof.
  revert b. induction s as [|c s IH]; intros b; cbn [Video.replace_from].
  - constructor.
  - destruct (Video.is_space c) eqn:Hc.
    + destruct b; [apply IH|]. constructor; [reflexivity|apply IH].
    + constructor; [exact Hc|apply IH].
Qed.

Lemma replace_from_clean (b : bool) (s : list N) :
  Forall (fun c => Video.is_space c = false) s -> Video.replace_from b s = s.
Proof.
  intros Hs. revert b. induction Hs as [|c s Hc Hs IH]; intros b;
    cbn [Video.replace_from]; [reflexivity|].
  rewrite Hc, IH. reflexivity.
Qed.

Lemma replace_from_length (b : bool) (s : list N) :
  (length (Video.replace_from b s) <= length s)%nat.
Proof.
  revert b. induction s as [|c s IH]; intros b; cbn [Video.replace_from length].
  - lia.
  - destruct (Video.is_space c); [destruct b|]; cbn [length];
      first [ pose proof (IH true); lia | pose proof (IH false); lia ].
Qed.

(** X22: Replacing the white space a second time changes nothing, and the
    replacement never makes a name longer. *)
Theorem replace_spaces_idempotent (s : list N) :
  Video.replace_spaces (Video.replace_spaces s) = Video.replace_spaces s /\
  (length (Video.replace_spaces s) <= length s)%nat.
Proof.
  unfold Video.replace_spaces. split.
  - apply replace_from_clean, replace_from_no_space.
  - apply replace_from_length.
Qed.

(** X23: The name under which the video is saved holds no white space, whatever
    the names of the route are, and ends in [.mp4]. *)
Theorem download_name_no_space (filename route_hash : option (list N))
    (fileId : list N) :
  Forall (fun c => Video.is_space c = false)
         (Video.download_name filename route_hash fileId) /\
  exists stem : list N,
    Video.download_name filename route_hash fileId = stem ++ Video.mp4.
Proof.
  unfold Video.download_name. split.
  - apply Forall_app. split; [apply replace_from_no_space|].
    repeat constructor.
  - eexists. reflexivity.
Qed.

(** X24: The name sent to the server as [route_name] is the name the download
    is called after, unless the route has no file name and an empty
    [route_hash]: [??] keeps the empty string where [||] passes on to
    [fileId]. *)
Theorem route_name_base_name (filename route_hash : option (list N))
    (fileId : list N) :
  (route_hash <> Some [] ->
   Video.route_name filename route_hash fileId
   = Video.base_name filename route_hash fileId) /\
  (Video.or_else filename None = None -> route_hash = Some [] ->
   Video.route_name filename route_hash fileId = [] /\
   Video.base_name filename route_hash fileId = fileId).
Proof.
  unfold Video.route_name, Video.base_name, Video.or_else, Video.nullish.
  split.
  - intros Hr. destruct filename as [[|c s]|], route_hash as [[|c' s']|];
      try reflexivity; congruence.
  - intros Hf ->. destruct filename as [[|c s]|]; try discriminate Hf;
      split; reflexivity.
Qed.

Lemma route_name_base_name_witness :
  Video.route_name None (Some []) [49%N] = [] /\
  Video.base_name None (Some []) [49%N] = [49%N].
Proof.
  apply (route_name_base_name None (Some []) [49%N]); reflexivity.
Defined.

(** ** The points of a chart *)

(** X25: [dist.map((x, i) => ({ x, y: speed[i] }))] makes one point for each
    distance: where the other series is shorter the points beyond its end
    have no [y], and where it is longer its excess is not plotted. *)
Theorem chart_points_shape {F : Type} (xs ys : list F) :
  length (chart_points xs ys) = length xs /\
  (forall i : nat, (i < length xs)%nat -> (i < length ys)%nat ->
     exists x y : F, chart_points xs ys !! i = Some (x, Some y) /\
                     xs !! i = Some x /\ ys !! i = Some y) /\
  (forall i : nat, (i < length xs)%nat -> (length ys <= i)%nat ->
     exists x : F, chart_points xs ys !! i = Some (x, None)) /\
  (forall i : nat, (length xs <= i)%nat -> chart_points xs ys !! i = None).
Proof.
  unfold chart_points. split; [apply length_imap|].
  split; [|split]; intros i.
  - intros Hx Hy.
    destruct (lookup_lt_is_Some_2 xs i Hx) as [x Hxi].
    destruct (lookup_lt_is_Some_2 ys i Hy) as [y Hyi].
    exists x, y. rewrite list_lookup_imap, Hxi, Hyi. repeat split.
  - intros Hx Hy.
    destruct (lookup_lt_is_Some_2 xs i Hx) as [x Hxi].
    exists x. rewrite list_lookup_imap, Hxi.
    rewrite (lookup_ge_None_2 ys i) by exact Hy. reflexivity.
  - intros Hx. rewrite list_lookup_imap.
    rewrite (lookup_ge_None_2 xs i) by exact Hx. reflexivity.
Qed.
